(** * TStat.py: the read path of the thermostat client

    A shallow embedding of [TStat._get] (cache probe, live fetch,
    sub-dictionary descent, value mapping) and of the public read
    accessors built on it, followed by the properties of the read path.

    Python values are an inductive type, the instance attributes and the
    environment the method talks to (wall clock, device) are one record
    threaded through a state-and-exception monad, and exceptions are
    results of that monad: an exception leaves the mutations made before
    it in place, as in Python.  The calls of the logger are left out:
    they change neither the object nor what a method returns. *)

From Stdlib Require Import ZArith QArith String Ascii List Lia.
From stdpp Require Import gmap strings list fin_maps.

Set Warnings "-register-all".

Local Open Scope string_scope.
Local Open Scope Z_scope.

(** ** Python values *)

(** What [json.loads] produces, plus [None] for a bare [return].  A
    float is held as the rational it denotes (only equality is ever
    computed on it); a decoded JSON object is a finite map from its
    member names. *)
Inductive pyval : Type :=
  | PNone
  | PBool (b : bool)
  | PInt (n : Z)
  | PFloat (q : Q)
  | PStr (s : string)
  | PList (l : list pyval)
  | PDict (d : gmap string pyval).

Inductive exn : Type :=
  | KeyError
  | TypeError
  | IndexError
  | NameError
  | ValueError
  | IOError.

Inductive Result (A : Type) : Type :=
  | Ok (a : A)
  | Raise (e : exn).
Arguments Ok {A} a.
Arguments Raise {A} e.

Definition exn_eqb (a b : exn) : bool :=
  match a, b with
  | KeyError, KeyError | TypeError, TypeError | IndexError, IndexError
  | NameError, NameError | ValueError, ValueError | IOError, IOError => true
  | _, _ => false
  end.

(** [obj[key]] for a string [key]: only a dict can be indexed by a
    string; every other type raises [TypeError], a dict without the key
    raises [KeyError]. *)
Definition getitem (obj : pyval) (key : string) : Result pyval :=
  match obj with
  | PDict d =>
      match d !! key with
      | Some v => Ok v
      | None => Raise KeyError
      end
  | _ => Raise TypeError
  end.

(** Numeric value of a hashable number: [True == 1 == 1.0] in Python. *)
Definition py_num (v : pyval) : option Q :=
  match v with
  | PBool b => Some (inject_Z (if b then 1 else 0))
  | PInt n => Some (inject_Z n)
  | PFloat q => Some q
  | _ => None
  end.

(** Equality of two dict keys. *)
Definition py_eqb (a b : pyval) : bool :=
  match a, b with
  | PNone, PNone => true
  | PStr s, PStr s' => String.eqb s s'
  | _, _ =>
      match py_num a, py_num b with
      | Some q, Some q' => Qeq_bool q q'
      | _, _ => false
      end
  end.

Definition hashable (v : pyval) : bool :=
  match v with
  | PList _ | PDict _ => false
  | _ => true
  end.

Fixpoint assoc (m : list (pyval * pyval)) (k : pyval) : option pyval :=
  match m with
  | [] => None
  | (k', v) :: m' => if py_eqb k' k then Some v else assoc m' k
  end.

(** [m[k]] for a dict [m] with keys of any hashable type (a value map):
    an unhashable [k] raises [TypeError], a missing one [KeyError]. *)
Definition dict_getitem (m : list (pyval * pyval)) (k : pyval) : Result pyval :=
  if hashable k then
    match assoc m k with
    | Some v => Ok v
    | None => Raise KeyError
    end
  else Raise TypeError.

(** [s.split(sep)] for a one-character separator: never the empty list,
    empty pieces are kept. *)
Fixpoint split (sep : ascii) (s : string) : list string :=
  match s with
  | EmptyString => [EmptyString]
  | String c s' =>
      if Ascii.eqb c sep then EmptyString :: split sep s'
      else match split sep s' with
           | [] => [String c EmptyString]
           | piece :: pieces => String c piece :: pieces
           end
  end.

(** ** The client object and its environment *)

(** A getter of the API table: [(location, jsonKey)]. *)
Definition getter : Type := string * string.

(** An entry of the API table (module [API], not part of this file's
    source: taken as data).  [_get] reads its [getters] and its
    [valueMap] only. *)
Record APIEntry : Type := mkAPIEntry {
  getters : list getter;
  valueMap : option (list (pyval * pyval))
}.

(** [class CacheEntry]; times are microseconds, the resolution of
    [datetime]. *)
Record CacheEntry : Type := mkCacheEntry {
  location : string;
  data : pyval;
  time : Z
}.

(** The attributes of a [TStat] instance that the read path uses
    ([cacheExpiry], [cache], [api]) and the environment it acts on:
    [clock n] is what the [n]-th call of [datetime.datetime.now()]
    returns and [ticks] counts the calls made so far; [device loc] is the
    outcome of a GET of [loc] at the thermostat followed by [json.loads];
    [requests] logs every GET issued, oldest first. *)
Record State : Type := mkState {
  cacheExpiry : Z;
  cache : gmap string CacheEntry;
  api : gmap string APIEntry;
  clock : nat -> Z;
  ticks : nat;
  device : string -> Result pyval;
  requests : list string
}.

Definition set_cacheExpiry (x : Z) (w : State) : State :=
  mkState x (cache w) (api w) (clock w) (ticks w) (device w) (requests w).
Definition set_cache (c : gmap string CacheEntry) (w : State) : State :=
  mkState (cacheExpiry w) c (api w) (clock w) (ticks w) (device w) (requests w).
Definition set_ticks (n : nat) (w : State) : State :=
  mkState (cacheExpiry w) (cache w) (api w) (clock w) n (device w) (requests w).
Definition set_requests (r : list string) (w : State) : State :=
  mkState (cacheExpiry w) (cache w) (api w) (clock w) (ticks w) (device w) r.

(** ** State and exceptions *)

Definition M (A : Type) : Type := State -> Result A * State.

Definition ret {A} (a : A) : M A := fun w => (Ok a, w).

Definition bind {A B} (m : M A) (k : A -> M B) : M B :=
  fun w =>
    match m w with
    | (Ok a, w') => k a w'
    | (Raise e, w') => (Raise e, w')
    end.

Definition lift {A} (r : Result A) : M A := fun w => (r, w).

(** [try: m except E: h] for the exceptions [E] that [handles] accepts. *)
Definition try_except {A} (m : M A) (handles : exn -> bool) (h : M A) : M A :=
  fun w =>
    match m w with
    | (Raise e, w') => if handles e then h w' else (Raise e, w')
    | r => r
    end.

Notation "x <- m ;; k" := (bind m (fun x => k))
  (at level 100, m at next level, right associativity).
Notation "m ;;; k" := (bind m (fun _ => k))
  (at level 100, right associativity).

(** [datetime.datetime.now()] *)
Definition now : M Z :=
  fun w => (Ok (clock w (ticks w)), set_ticks (S (ticks w)) w).

(** [CacheEntry.age] *)
Definition age (e : CacheEntry) : M Z :=
  t <- now ;; ret (t - time e).

(** [CacheEntry.__init__] *)
Definition CacheEntry_init (loc : string) (d : pyval) : M CacheEntry :=
  t <- now ;; ret (mkCacheEntry loc d t).

(** [TStat.setCacheExpiry]: [timedelta(seconds=newExpiry)], for a whole
    number of seconds. *)
Definition setCacheExpiry (newExpiry : Z) : M unit :=
  fun w => (Ok tt, set_cacheExpiry (newExpiry * 1000000) w).

(** [self.api.has_key(key)] and [self.api[key]] *)
Definition api_has_key (key : string) : M bool :=
  fun w => (Ok (bool_decide (is_Some (api w !! key))), w).
Definition api_getitem (key : string) : M APIEntry :=
  fun w => (match api w !! key with Some e => Ok e | None => Raise KeyError end, w).

(** [self.cache.has_key(loc)], [self.cache[loc]], [self.cache[loc] = e] *)
Definition cache_has_key (loc : string) : M bool :=
  fun w => (Ok (bool_decide (is_Some (cache w !! loc))), w).
Definition cache_getitem (loc : string) : M CacheEntry :=
  fun w => (match cache w !! loc with Some e => Ok e | None => Raise KeyError end, w).
Definition cache_setitem (loc : string) (e : CacheEntry) : M unit :=
  fun w => (Ok tt, set_cache (<[loc := e]> (cache w)) w).

(** [conn = self._getConn(); conn.request("GET", loc);
    json.loads(conn.getresponse().read())] *)
Definition http_get (loc : string) : M pyval :=
  fun w => (device w loc, set_requests (requests w ++ [loc]) w).

(** [newest[0]] where [newest] may still be [None]. *)
Definition subscript0 (newest : option getter) : Result string :=
  match newest with
  | Some g => Ok (fst g)
  | None => Raise TypeError
  end.

(** Reading a local variable that may be unbound. *)
Definition local {A} (x : option A) : Result A :=
  match x with
  | Some a => Ok a
  | None => Raise NameError
  end.

(** [l[0]] *)
Definition first {A} (l : list A) : Result A :=
  match l with
  | a :: _ => Ok a
  | [] => Raise IndexError
  end.

(** [self.cacheExpiry] *)
Definition get_cacheExpiry : M Z := fun w => (Ok (cacheExpiry w), w).

(** ** [TStat._get] *)

Definition is_TypeError (e : exn) : bool := exn_eqb e TypeError.

(** The body of [for getter in entry.getters], from the value of
    [newest] before the iteration to its value after it.  In the
    comparison of the two ages the left operand [cacheEntry.age()] is
    evaluated before [newest[0]]: the clock is read even when [newest]
    is still [None], and the [TypeError] of [None[0]] then sends
    control to the handler. *)
Definition check_getter (g : getter) (newest : option getter) : M (option getter) :=
  let location := fst g in
  found <- cache_has_key location ;;
  if found : bool then
    cacheEntry <- cache_getitem location ;;
    a <- age cacheEntry ;;
    expiry <- get_cacheExpiry ;;
    if a <? expiry then
      try_except
        (a1 <- age cacheEntry ;;
         loc <- lift (subscript0 newest) ;;
         newestEntry <- cache_getitem loc ;;
         a2 <- age newestEntry ;;
         if a1 <? a2 then ret (Some g) else ret newest)
        is_TypeError
        (ret (Some g))
    else ret newest
  else ret newest.

(** The [for] loop over the getters.  It carries the two locals that
    are read after it: [newest], and the loop variable [getter], which
    stays bound to the last getter visited ([cur] is [None] while it is
    unbound). *)
Fixpoint check_cache (gs : list getter) (newest cur : option getter)
  : M (option getter * option getter) :=
  match gs with
  | [] => ret (newest, cur)
  | g :: gs' =>
      newest' <- check_getter g newest ;;
      check_cache gs' newest' (Some g)
  end.

(** [for key in path.split("/"): response = response[key]] *)
Fixpoint descend (keys : list string) (response : pyval) : Result pyval :=
  match keys with
  | [] => Ok response
  | key :: keys' =>
      match getitem response key with
      | Ok v => descend keys' v
      | Raise e => Raise e
      end
  end.

(** The tail of [_get], from [if raw or entry.valueMap is None] on.
    The bare [except:] swallows whatever [entry.valueMap[response]]
    raises, and control falls through to the final [return response].
    (Formatting the debug line in the [try] is taken to succeed.) *)
Definition map_response (raw : bool) (entry : APIEntry) (response : pyval) : pyval :=
  match raw, valueMap entry with
  | true, _ | _, None => response
  | false, Some vm =>
      match dict_getitem vm response with
      | Ok v => v
      | Raise _ => response
      end
  end.

(** [_get] up to the comment "Allow mappings to subdictionaries": for a
    key of the API, the entry, the getter that the local [getter] is
    bound to, and [response]; [None] for a key outside the API, where
    the method returns without a value.  On a cache hit [response] is
    the cached data already indexed by the whole of [newest[1]], and
    [getter] is whatever the loop left in it. *)
Definition retrieve (key : string) : M (option (APIEntry * getter * pyval)) :=
  known <- api_has_key key ;;
  if negb known then ret None
  else
    entry <- api_getitem key ;;
    locals <- check_cache (getters entry) None None ;;
    let '(newest, cur) := locals in
    match newest with
    | Some n =>
        cacheEntry <- cache_getitem (fst n) ;;
        response <- lift (getitem (data cacheEntry) (snd n)) ;;
        g <- lift (local cur) ;;
        ret (Some (entry, g, response))
    | None =>
        g <- lift (first (getters entry)) ;;
        response <- http_get (fst g) ;;
        cacheEntry <- CacheEntry_init (fst g) response ;;
        cache_setitem (fst g) cacheEntry ;;;
        ret (Some (entry, g, response))
    end.

Definition _get (key : string) (raw : bool) : M pyval :=
  r <- retrieve key ;;
  match r with
  | None => ret PNone
  | Some (entry, g, response) =>
      response' <- lift (descend (split "/" (snd g)) response) ;;
      ret (map_response raw entry response')
  end.

(** ** The public read accessors *)

Definition getCurrentTemp (raw : bool) : M pyval := _get "temp" raw.
Definition getTstatMode (raw : bool) : M pyval := _get "tmode" raw.
Definition getFanMode (raw : bool) : M pyval := _get "fmode" raw.
Definition getOverride (raw : bool) : M pyval := _get "override" raw.
Definition getHoldState (raw : bool) : M pyval := _get "hold" raw.
Definition getHeatPoint (raw : bool) : M pyval := _get "t_heat" raw.
Definition getCoolPoint (raw : bool) : M pyval := _get "t_cool" raw.
Definition getSetPoints (raw : bool) : M (pyval * pyval) :=
  h <- getHeatPoint false ;; c <- getCoolPoint false ;; ret (h, c).
Definition getModel (raw : bool) : M pyval := _get "model" raw.
Definition getTState (raw : bool) : M pyval := _get "tstate" raw.
Definition getFanState (raw : bool) : M pyval := _get "fstate" raw.
Definition getTime (raw : bool) : M pyval := ret PNone.
Definition getHeatUsageToday (raw : bool) : M pyval := _get "today_heat_runtime" false.
Definition getHeatUsageYesterday (raw : bool) : M pyval := _get "yesterday_heat_runtime" false.
Definition getCoolUsageToday (raw : bool) : M pyval := _get "today_cool_runtime" false.
Definition getCoolUsageYesterday (raw : bool) : M pyval := _get "yesterday_cool_runtime" false.

(** ** Vocabulary of the properties *)

(** [w'] is [w] after some reads of the clock and nothing else. *)
Definition ticked (w w' : State) : Prop := exists k, w' = set_ticks k w.

(** The getter [g] has no entry in the cache, or one that has reached
    the expiry at every reading of the clock. *)
Definition missing_or_expired (w : State) (g : getter) : Prop :=
  cache w !! fst g = None \/
  exists ce, cache w !! fst g = Some ce /\
             forall n, cacheExpiry w <= clock w n - time ce.

(** The getter [g] has an entry in the cache that is younger than the
    expiry at every reading of the clock. *)
Definition valid_throughout (w : State) (g : getter) : Prop :=
  exists ce, cache w !! fst g = Some ce /\
             forall n, clock w n - time ce < cacheExpiry w.

(** What the probe keeps in [newest] is a getter whose location is in
    the cache. *)
Definition cached (c : gmap string CacheEntry) (newest : option getter) : Prop :=
  forall n, newest = Some n -> is_Some (c !! fst n).

(** The variable [getter] after a loop over [gs] that it entered bound
    as [cur] says. *)
Definition loop_var (gs : list getter) (cur : option getter) : option getter :=
  match last gs with
  | Some g => Some g
  | None => cur
  end.

(** *** A clock that keeps running *)

(** The clock never runs backwards; every candidate of [gs] is valid at
    every reading or at none; and between two successive readings the
    clock advances by no more than the entries of any two candidates
    of different stamps lie apart. *)
Definition steady (w : State) (gs : list getter) : Prop :=
  (forall n, clock w n <= clock w (S n)) /\
  (forall g, g ∈ gs -> valid_throughout w g \/ missing_or_expired w g) /\
  (forall g g' ce ce' n,
     g ∈ gs -> g' ∈ gs ->
     cache w !! fst g = Some ce -> cache w !! fst g' = Some ce' ->
     time ce < time ce' -> clock w (S n) - clock w n <= time ce' - time ce).

(** [n] is a valid candidate of [gs] fetched no earlier than any other
    valid candidate of [gs]. *)
Definition latest (w : State) (gs : list getter) (n : getter) : Prop :=
  n ∈ gs /\ valid_throughout w n /\
  forall g ce cn,
    g ∈ gs -> valid_throughout w g ->
    cache w !! fst g = Some ce -> cache w !! fst n = Some cn ->
    time ce <= time cn.

Definition latest_kept (w : State) (gs : list getter) (newest : option getter) : Prop :=
  match newest with
  | Some n => latest w gs n
  | None => forall g, g ∈ gs -> missing_or_expired w g
  end.

(** *** Ages at one instant *)

(** The clock of [w] stands still at [t]. *)
Definition frozen (t : Z) (w : State) : Prop := forall n, clock w n = t.

(** The age, at instant [t], of the entry cached for the location of
    [g], and whether that entry is there and younger than [ttl]. *)
Definition age_at (t : Z) (c : gmap string CacheEntry) (g : getter) : option Z :=
  (fun e => t - time e) <$> c !! fst g.

Definition valid_at (t ttl : Z) (c : gmap string CacheEntry) (g : getter) : bool :=
  match age_at t c g with
  | Some a => a <? ttl
  | None => false
  end.

(** [n], at position [i] of [gs], is the freshest valid candidate: no
    valid candidate is younger, and the valid candidates before it are
    strictly older. *)
Definition freshest (t ttl : Z) (c : gmap string CacheEntry) (gs : list getter)
    (i : nat) (n : getter) : Prop :=
  gs !! i = Some n /\ valid_at t ttl c n = true /\
  forall j g, gs !! j = Some g -> valid_at t ttl c g = true ->
    exists a a', age_at t c n = Some a /\ age_at t c g = Some a' /\
      a <= a' /\ ((j < i)%nat -> a < a').

(** One iteration of the probe when every clock read returns [t], and
    the whole probe as a fold; they serve the proof of what [check_cache]
    computes under a clock standing still. *)
Definition pick (t ttl : Z) (c : gmap string CacheEntry) (g : getter)
    (newest : option getter) : option getter :=
  if valid_at t ttl c g then
    match newest with
    | None => Some g
    | Some n =>
        match age_at t c g, age_at t c n with
        | Some a1, Some a2 => if a1 <? a2 then Some g else newest
        | _, _ => newest
        end
    end
  else newest.

Definition select (t ttl : Z) (c : gmap string CacheEntry) (gs : list getter)
    (newest : option getter) : option getter :=
  fold_left (fun acc g => pick t ttl c g acc) gs newest.

Definition kept (t ttl : Z) (c : gmap string CacheEntry) (gs : list getter)
    (newest : option getter) : Prop :=
  match newest with
  | Some n => exists i, freshest t ttl c gs i n
  | None => forall g, g ∈ gs -> valid_at t ttl c g = false
  end.

(** *** Walking down a payload *)


(** ** Worked situations *)

(** The answer of [/tstat] with a fan mode and a thermostat mode, and
    two answers of the usage log. *)
Definition tstat_payload : pyval :=
  PDict {[ "fmode" := PInt 1; "tmode" := PInt 2 ]}.
Definition datalog_payload : pyval :=
  PDict {[ "today" := PDict {[ "heat_runtime" := PInt 42 ]} ]}.
Definition datalog_empty_day : pyval :=
  PDict {[ "today" := PDict ∅ ]}.

Definition fmode_entry : APIEntry :=
  mkAPIEntry [("/tstat", "fmode")]
    (Some [(PInt 0, PStr "off"); (PInt 1, PStr "auto")]).
Definition tmode_entry : APIEntry :=
  mkAPIEntry [("/tstat", "tmode")] None.
Definition usage_entry : APIEntry :=
  mkAPIEntry [("/tstat/datalog", "today/heat_runtime")]
    (Some [(PInt 42, PStr "forty-two")]).

Definition ex_api : gmap string APIEntry :=
  {[ "fmode" := fmode_entry;
     "tmode" := tmode_entry;
     "today_heat_runtime" := usage_entry ]}.

Definition ex_device (datalog : pyval) (loc : string) : Result pyval :=
  if String.eqb loc "/tstat" then Ok tstat_payload
  else if String.eqb loc "/tstat/datalog" then Ok datalog
  else Raise IOError.

(** A fresh client with a five-second expiry, at time 0. *)
Definition ex_start : State :=
  mkState 5000000 ∅ ex_api (fun _ => 0) 0%nat (ex_device datalog_payload) [].

(** The same object and device when the clock shows [t]. *)
Definition at_time (t : Z) (w : State) : State :=
  mkState (cacheExpiry w) (cache w) (api w) (fun _ => t) (ticks w) (device w)
    (requests w).

(** [/tstat] was cached at time 0 and the clock shows one second. *)
Definition ex_cached : State :=
  mkState 5000000 {[ "/tstat" := mkCacheEntry "/tstat" tstat_payload 0 ]}
    ex_api (fun _ => 1000000) 0%nat (ex_device datalog_payload) [].

(** The same cache when the clock shows five seconds: the entry has
    just reached the expiry. *)
Definition ex_expired : State := at_time 5000000 ex_cached.

(** A key with two getters; only the first one's location is cached,
    and what is cached there nests an object under ["x"]. *)
Definition ex_two_api : gmap string APIEntry :=
  {[ "k" := mkAPIEntry [("/a", "x"); ("/b", "y")] None ]}.
Definition ex_two_payload : pyval :=
  PDict {[ "x" := PDict {[ "y" := PInt 7 ]} ]}.
Definition ex_two : State :=
  mkState 5000000 {[ "/a" := mkCacheEntry "/a" ex_two_payload 0 ]}
    ex_two_api (fun _ => 1000000) 0%nat (fun _ => Raise IOError) [].

(** Three candidates cached 3 s, 1 s and 1 s ago, in registry order. *)
Definition ex_three_getters : list getter :=
  [("/a", "x"); ("/b", "x"); ("/c", "x")].
Definition ex_three : State :=
  mkState 5000000
    {[ "/a" := mkCacheEntry "/a" PNone 1000000;
       "/b" := mkCacheEntry "/b" PNone 3000000;
       "/c" := mkCacheEntry "/c" PNone 3000000 ]}
    ∅ (fun _ => 4000000) 0%nat (fun _ => Raise IOError) [].

(** Two getters on one location, cached at time 0, one second later,
    under a clock that advances by a microsecond from each of its first
    readings to the next. *)
Definition ex_shared_getters : list getter :=
  [("/tstat", "fmode"); ("/tstat", "tmode")].
Definition ex_shared : State :=
  mkState 5000000 {[ "/tstat" := mkCacheEntry "/tstat" tstat_payload 0 ]}
    ∅ (fun n => 1000000 + Z.of_nat (Nat.min n 8)) 0%nat (fun _ => Raise IOError) [].

(** The device reports a fan mode that the value map does not know. *)
Definition ex_odd : State :=
  mkState 5000000 ∅ ex_api (fun _ => 0) 0%nat
    (fun _ => Ok (PDict {[ "fmode" := PInt 7 ]})) [].

(** The usage log of a day without a heat runtime. *)
Definition ex_empty_day : State :=
  mkState 5000000 ∅ ex_api (fun _ => 0) 0%nat (ex_device datalog_empty_day) [].

(** ** Proof steps *)

Ltac run_step :=
  unfold bind, ret, lift, now, age, cache_has_key, cache_getitem, get_cacheExpiry,
    try_except, subscript0; simpl.
(** ** The constructor *)

Definition set_api (a : gmap string APIEntry) (w : State) : State :=
  mkState (cacheExpiry w) (cache w) a (clock w) (ticks w) (device w) (requests w).

Definition put_cache (c : gmap string CacheEntry) : M unit :=
  fun w => (Ok tt, set_cache c w).
Definition put_api (a : gmap string APIEntry) : M unit :=
  fun w => (Ok tt, set_api a w).

(** [TStat.__init__].  [API0] is the table that [API()] builds and
    [getAPI] the function of that name, both of module [API], which is
    not part of this file's source: they are taken as given.  The
    address and the logger are kept by the constructor and used by the
    connection and the debug lines only; here the device stands for the
    thermostat at that address.  [cacheExpiry] defaults to 5 seconds
    and [api] to [None] in the source. *)
Definition TStat_init (API0 : gmap string APIEntry)
    (getAPI : pyval -> Result (gmap string APIEntry))
    (cacheExpiry_s : Z) (api_arg : option (gmap string APIEntry)) : M unit :=
  setCacheExpiry cacheExpiry_s ;;;
  put_cache ∅ ;;;
  match api_arg with
  | None =>
      put_api API0 ;;;
      model <- getModel false ;;
      table <- lift (getAPI model) ;;
      put_api table
  | Some a => put_api a
  end.

(** ** More vocabulary *)

(** How often [sep] occurs in [s], and whether it does. *)
Fixpoint count_sep (sep : ascii) (s : string) : nat :=
  match s with
  | EmptyString => 0%nat
  | String c s' => ((if Ascii.eqb c sep then 1 else 0) + count_sep sep s')%nat
  end.

Definition has_sep (sep : ascii) (s : string) : bool :=
  negb (Nat.eqb (count_sep sep s) 0).

Definition is_dict (v : pyval) : bool :=
  match v with
  | PDict _ => true
  | _ => false
  end.

(** Every entry of the cache sits under its own location. *)
Definition keyed (w : State) : Prop :=
  forall loc ce, cache w !! loc = Some ce -> location ce = loc.

(** Every entry of the cache bears a reading that the clock has
    already given. *)
Definition stamped (w : State) : Prop :=
  forall loc ce, cache w !! loc = Some ce ->
    exists k, (k < ticks w)%nat /\ time ce = clock w k.

(** The clock never runs backwards. *)
Definition forward (w : State) : Prop :=
  forall n m, (n <= m)%nat -> clock w n <= clock w m.

(** The getter [g] has no entry in the cache, or one that has reached
    the expiry at every reading that the clock has yet to give. *)
Definition stale_from_now (w : State) (g : getter) : Prop :=
  cache w !! fst g = None \/
  exists ce, cache w !! fst g = Some ce /\
             forall n, (ticks w <= n)%nat -> cacheExpiry w <= clock w n - time ce.

(** *** More worked situations *)

(** Both set points served by [/tstat]. *)
Definition ex_points_api : gmap string APIEntry :=
  {[ "t_heat" := mkAPIEntry [("/tstat", "t_heat")] None;
     "t_cool" := mkAPIEntry [("/tstat", "t_cool")] None ]}.
Definition ex_points_payload : pyval :=
  PDict {[ "t_heat" := PInt 68; "t_cool" := PInt 75 ]}.
Definition ex_points : State :=
  mkState 5000000 ∅ ex_points_api (fun _ => 0) 0%nat
    (fun _ => Ok ex_points_payload) [].

(** The same device with the cache switched off and a value map on the
    heat point. *)
Definition ex_points_mapped : State :=
  mkState 0 ∅
    {[ "t_heat" := mkAPIEntry [("/tstat", "t_heat")] (Some [(PInt 68, PStr "warm")]);
       "t_cool" := mkAPIEntry [("/tstat", "t_cool")] None ]}
    (fun _ => 0) 0%nat (fun _ => Ok ex_points_payload) [].

(** A device that cannot be reached, with [/tstat] cached long ago. *)
Definition ex_down : State :=
  mkState 5000000 {[ "/tstat" := mkCacheEntry "/tstat" tstat_payload 0 ]}
    ex_api (fun _ => 9000000) 1%nat (fun _ => Raise IOError) [].

(** The usage log was cached at time 0 and the clock shows one second. *)
Definition ex_usage_cached : State :=
  mkState 5000000
    {[ "/tstat/datalog" := mkCacheEntry "/tstat/datalog" datalog_payload 0 ]}
    ex_api (fun _ => 1000000) 0%nat (ex_device datalog_payload) [].

(** A key of the API without any getter. *)
Definition ex_bare : State :=
  mkState 5000000 ∅ {[ "model" := mkAPIEntry [] None ]}
    (fun _ => 0) 0%nat (fun _ => Raise IOError) [].

(** The tables of module [API] in a small version: the bare table knows
    the model only, and [getAPI] answers every model with [ex_api]. *)
Definition ex_API0 : gmap string APIEntry :=
  {[ "model" := mkAPIEntry [("/tstat/model", "model")] None ]}.
Definition ex_getAPI (model : pyval) : Result (gmap string APIEntry) := Ok ex_api.
Definition ex_boot : State :=
  mkState 0 {[ "/old" := mkCacheEntry "/old" PNone 0 ]} ∅ (fun _ => 0) 0%nat
    (fun _ => Ok (PDict {[ "model" := PStr "CT50" ]})) [].

(** [/tstat] cached at the first reading of a clock that moves on by a
    second at each reading, with an expiry of 0. *)
Definition ex_zero : State :=
  mkState 0 {[ "/tstat" := mkCacheEntry "/tstat" tstat_payload 0 ]}
    ex_api (fun n => 1000000 * Z.of_nat n) 1%nat (ex_device datalog_payload) [].

(** ** State bookkeeping *)

Lemma set_ticks_same w : set_ticks (ticks w) w = w.
Proof. by destruct w. Qed.

Lemma ticked_refl w : ticked w w.
Proof. exists (ticks w). by rewrite set_ticks_same. Qed.

Lemma ticked_trans w1 w2 w3 : ticked w1 w2 -> ticked w2 w3 -> ticked w1 w3.
Proof. intros [a ->] [b ->]. by exists b. Qed.

Lemma frozen_set_ticks t k w : frozen t w -> frozen t (set_ticks k w).
Proof. intros H n. apply H. Qed.

Ltac tick := first [ apply ticked_refl | eexists; reflexivity ].

Lemma loop_var_cons g gs cur : loop_var (g :: gs) cur = loop_var gs (Some g).
Proof.
  unfold loop_var. destruct gs as [|g' gs]; [done|].
  rewrite (last_cons g). by destruct (last (g' :: gs)).
Qed.

Lemma loop_var_None gs : loop_var gs None = last gs.
Proof. unfold loop_var. by destruct (last gs). Qed.

(** ** The cache probe under any clock *)

(** The probe changes nothing but the count of clock reads, whether it
    ends normally or not. *)
Lemma check_getter_ticked g newest w :
  ticked w (snd (check_getter g newest w)).
Proof.
  unfold check_getter. run_step.
  destruct (cache w !! g.1) as [e|] eqn:He; simpl; [|tick].
  rewrite He. simpl.
  destruct (_ <? _); simpl; [|tick].
  destruct newest as [n|]; simpl; [|tick].
  destruct (cache w !! n.1) as [e'|]; simpl; [|tick].
  destruct (_ <? _); simpl; tick.
Qed.

Lemma check_cache_ticked gs newest cur w :
  ticked w (snd (check_cache gs newest cur w)).
Proof.
  revert newest cur w. induction gs as [|g gs IH]; intros newest cur w; simpl.
  - apply ticked_refl.
  - unfold bind. pose proof (check_getter_ticked g newest w) as H.
    destruct (check_getter g newest w) as [[o|e] w1]; simpl in *; [|done].
    eapply ticked_trans; [exact H | apply IH].
Qed.

(** A getter without a usable entry leaves [newest] as it is. *)
Lemma check_getter_skips g newest w :
  missing_or_expired w g ->
  exists k, check_getter g newest w = (Ok newest, set_ticks k w).
Proof.
  intros [Hn|(ce & Hce & Hexp)]; unfold check_getter; run_step.
  - rewrite Hn. simpl. exists (ticks w). by rewrite set_ticks_same.
  - rewrite Hce. simpl. rewrite Hce.
    destruct (Z.ltb_spec (clock w (ticks w) - time ce) (cacheExpiry w)) as [Hlt|_].
    + specialize (Hexp (ticks w)). lia.
    + by eexists.
Qed.

Lemma check_cache_skips gs newest cur w :
  (forall g, g ∈ gs -> missing_or_expired w g) ->
  exists k, check_cache gs newest cur w = (Ok (newest, loop_var gs cur), set_ticks k w).
Proof.
  revert cur w. induction gs as [|g gs IH]; intros cur w Hall.
  - exists (ticks w). by rewrite set_ticks_same.
  - simpl. unfold bind.
    destruct (check_getter_skips g newest w) as [k ->]; [apply Hall, list_elem_of_here|].
    destruct (IH (Some g) (set_ticks k w)) as [k' ->].
    { intros g' Hg'. apply (Hall g'). by apply list_elem_of_further. }
    exists k'. by rewrite loop_var_cons.
Qed.

(** The probe never raises; [newest], once bound, stays bound; and a
    getter with an entry valid at every reading binds it. *)
Lemma check_getter_total g newest w :
  cached (cache w) newest ->
  exists newest' k,
    check_getter g newest w = (Ok newest', set_ticks k w) /\
    cached (cache w) newest' /\
    (is_Some newest -> is_Some newest') /\
    (valid_throughout w g -> is_Some newest').
Proof.
  intros Hc. unfold check_getter. run_step.
  destruct (cache w !! g.1) as [e|] eqn:He; simpl.
  - rewrite He. simpl.
    assert (Hg : cached (cache w) (Some g)).
    { intros n [= <-]. by rewrite He. }
    destruct (Z.ltb_spec (clock w (ticks w) - time e) (cacheExpiry w)) as [Hlt|Hge].
    + destruct newest as [n|]; simpl.
      * destruct (Hc n eq_refl) as [e' He']. rewrite He'. simpl.
        destruct (_ <? _); eexists _, _; (split; [reflexivity|]); eauto.
      * eexists _, _. split; [reflexivity|]. eauto.
    + eexists _, _. split; [reflexivity|]. split; [done|]. split; [done|].
      intros (ce & Hce & Hv). rewrite He in Hce. injection Hce as <-.
      specialize (Hv (ticks w)). lia.
  - exists newest, (ticks w). rewrite set_ticks_same.
    split; [done|]. split; [done|]. split; [done|].
    intros (ce & Hce & _). by rewrite He in Hce.
Qed.

Lemma check_cache_total gs newest cur w :
  cached (cache w) newest ->
  exists newest' k,
    check_cache gs newest cur w = (Ok (newest', loop_var gs cur), set_ticks k w) /\
    cached (cache w) newest' /\
    (is_Some newest -> is_Some newest') /\
    ((exists g, g ∈ gs /\ valid_throughout w g) -> is_Some newest').
Proof.
  revert newest cur w. induction gs as [|g gs IH]; intros newest cur w Hc.
  - exists newest, (ticks w). rewrite set_ticks_same.
    split; [done|]. split; [done|]. split; [done|].
    intros (g & Hg & _). by apply elem_of_nil in Hg.
  - simpl. unfold bind.
    destruct (check_getter_total g newest w Hc) as (n1 & k & -> & Hc1 & Hkeep1 & Hval1).
    destruct (IH n1 (Some g) (set_ticks k w) Hc1) as (n2 & k' & -> & Hc2 & Hkeep2 & Hval2).
    exists n2, k'. rewrite loop_var_cons.
    split; [done|]. split; [done|]. split; [by auto|].
    intros (g' & [->|Hin]%elem_of_cons & Hv).
    + by apply Hkeep2, Hval1.
    + apply Hval2. by exists g'.
Qed.

(** *** Under a clock that keeps running *)

Lemma valid_not_expired w g : valid_throughout w g -> missing_or_expired w g -> False.
Proof.
  intros (ce & Hce & Hv) [Hn|(ce' & Hce' & Hexp)].
  - by rewrite Hn in Hce.
  - rewrite Hce in Hce'. injection Hce' as <-.
    specialize (Hv 0%nat). specialize (Hexp 0%nat). lia.
Qed.

Lemma check_getter_steady (all pre : list getter) g newest w :
  steady w all -> (forall x, x ∈ (pre ++ [g])%list -> x ∈ all) ->
  latest_kept w pre newest ->
  exists newest' k,
    check_getter g newest w = (Ok newest', set_ticks k w) /\
    latest_kept w (pre ++ [g]) newest'.
Proof.
  intros (Hmono & Hstable & Hgap) Hsub Hk.
  assert (Hg : g ∈ all) by (apply Hsub, elem_of_app; right; apply list_elem_of_here).
  destruct (Hstable g Hg) as [Hv|Hx].
  - destruct Hv as (ce & Hce & Hv).
    assert (Hvg : valid_throughout w g) by (by exists ce).
    unfold check_getter. run_step. rewrite Hce. simpl. rewrite Hce.
    destruct (Z.ltb_spec (clock w (ticks w) - time ce) (cacheExpiry w)) as [_|Hge].
    2:{ specialize (Hv (ticks w)). lia. }
    destruct newest as [n|]; simpl in *.
    + destruct Hk as (Hn & Hvn & Hmax).
      destruct Hvn as (cn & Hcn & Hvn). rewrite Hcn. simpl.
      assert (Hnall : n ∈ all) by (apply Hsub, elem_of_app; by left).
      destruct (Z.ltb_spec (clock w (S (ticks w)) - time ce)
                  (clock w (S (S (ticks w))) - time cn)) as [Hlt|Hle].
      * eexists _, _. split; [reflexivity|].
        assert (Hcn_le : time cn <= time ce).
        { destruct (Z.le_gt_cases (time cn) (time ce)) as [|Hgt]; [done|].
          pose proof (Hgap g n ce cn (S (ticks w)) Hg Hnall Hce Hcn Hgt). lia. }
        split; [apply elem_of_app; right; apply list_elem_of_here|].
        split; [done|].
        intros g' ce' cg [Hin| ->%list_elem_of_singleton]%elem_of_app Hv' Hce' Hcg;
          rewrite Hce in Hcg; injection Hcg as <-.
        -- pose proof (Hmax g' ce' cn Hin Hv' Hce' Hcn). lia.
        -- rewrite Hce in Hce'. injection Hce' as <-. lia.
      * eexists _, _. split; [reflexivity|].
        assert (Hce_le : time ce <= time cn).
        { destruct (Z.le_gt_cases (time ce) (time cn)) as [|Hgt]; [done|].
          pose proof (Hmono (S (ticks w))). lia. }
        split; [apply elem_of_app; by left|].
        split; [by exists cn|].
        intros g' ce' cn' [Hin| ->%list_elem_of_singleton]%elem_of_app Hv' Hce' Hcn';
          rewrite Hcn in Hcn'; injection Hcn' as <-.
        -- by apply (Hmax g' ce' cn).
        -- rewrite Hce in Hce'. by injection Hce' as <-.
    + eexists _, _. split; [reflexivity|].
      split; [apply elem_of_app; right; apply list_elem_of_here|].
      split; [done|].
      intros g' ce' cg [Hin| ->%list_elem_of_singleton]%elem_of_app Hv' Hce' Hcg.
      * destruct (valid_not_expired w g' Hv' (Hk g' Hin)).
      * rewrite Hce in Hce', Hcg. injection Hce' as <-. injection Hcg as <-. lia.
  - destruct (check_getter_skips g newest w Hx) as [k ->].
    exists newest, k. split; [done|].
    destruct newest as [n|]; simpl in *.
    + destruct Hk as (Hn & Hvn & Hmax).
      split; [apply elem_of_app; by left|]. split; [done|].
      intros g' ce' cn [Hin| ->%list_elem_of_singleton]%elem_of_app Hv' Hce' Hcn.
      * by apply (Hmax g' ce' cn).
      * destruct (valid_not_expired w g Hv' Hx).
    + intros g' [Hin| ->%list_elem_of_singleton]%elem_of_app; [by apply Hk|done].
Qed.

Lemma check_cache_steady (all gs pre : list getter) newest cur w :
  steady w all -> (forall x, x ∈ (pre ++ gs)%list -> x ∈ all) ->
  latest_kept w pre newest ->
  exists newest' k,
    check_cache gs newest cur w = (Ok (newest', loop_var gs cur), set_ticks k w) /\
    latest_kept w (pre ++ gs) newest'.
Proof.
  revert pre newest cur w.
  induction gs as [|g gs IH]; intros pre newest cur w Hs Hsub Hk.
  - exists newest, (ticks w). rewrite set_ticks_same, app_nil_r. by split.
  - simpl. unfold bind.
    assert (Hsub' : forall x, x ∈ ((pre ++ [g]) ++ gs)%list -> x ∈ all).
    { intros x Hx. apply Hsub. by rewrite <- app_assoc in Hx. }
    destruct (check_getter_steady all pre g newest w Hs) as (n1 & k & -> & Hk1); [|done|].
    { intros x Hx. apply Hsub'. apply elem_of_app. by left. }
    destruct (IH (pre ++ [g])%list n1 (Some g) (set_ticks k w) Hs Hsub' Hk1)
      as (n2 & k' & -> & Hk2).
    exists n2, k'. rewrite loop_var_cons. split; [done|].
    by rewrite <- app_assoc in Hk2.
Qed.

(** ** The cache probe under a clock standing still *)

Lemma valid_at_cached t ttl c g :
  valid_at t ttl c g = true -> exists e, c !! fst g = Some e /\ t - time e < ttl.
Proof.
  unfold valid_at, age_at. destruct (c !! g.1) as [e|]; simpl; [|done].
  intros H. exists e. split; [done|lia].
Qed.

Lemma valid_at_age t ttl c g :
  valid_at t ttl c g = true -> exists a, age_at t c g = Some a /\ a < ttl.
Proof.
  unfold valid_at. destruct (age_at t c g) as [a|]; [|done].
  intros H. exists a. split; [done|lia].
Qed.

Lemma pick_cached t ttl c g newest :
  cached c newest -> cached c (pick t ttl c g newest).
Proof.
  intros Hc n. unfold pick.
  destruct (valid_at t ttl c g) eqn:Hv; [|apply Hc].
  apply valid_at_cached in Hv as (e & He & _).
  destruct newest as [m|].
  - destruct (age_at t c g), (age_at t c m); try apply Hc.
    destruct (_ <? _); [|apply Hc].
    intros [= <-]. by rewrite He.
  - intros [= <-]. by rewrite He.
Qed.

Lemma check_getter_frozen t g newest w :
  frozen t w -> cached (cache w) newest ->
  exists k, check_getter g newest w
            = (Ok (pick t (cacheExpiry w) (cache w) g newest), set_ticks k w).
Proof.
  intros Ht Hc. unfold check_getter, pick, valid_at, age_at. run_step.
  destruct (cache w !! g.1) as [e|] eqn:He; simpl.
  - rewrite He, !Ht. simpl.
    destruct (t - time e <? cacheExpiry w); [|by eexists].
    destruct newest as [n|]; simpl; [|by eexists].
    destruct (Hc n eq_refl) as [e' He']. rewrite He'. simpl. rewrite !Ht.
    destruct (_ <? _); by eexists.
  - exists (ticks w). by rewrite set_ticks_same.
Qed.

Lemma check_cache_frozen t gs newest cur w :
  frozen t w -> cached (cache w) newest ->
  exists k, check_cache gs newest cur w
            = (Ok (select t (cacheExpiry w) (cache w) gs newest, loop_var gs cur),
               set_ticks k w).
Proof.
  revert newest cur w. induction gs as [|g gs IH]; intros newest cur w Ht Hc.
  - exists (ticks w). by rewrite set_ticks_same.
  - simpl. unfold bind.
    destruct (check_getter_frozen t g newest w Ht Hc) as [k ->].
    destruct (IH (pick t (cacheExpiry w) (cache w) g newest) (Some g) (set_ticks k w))
      as [k' ->]; [by apply frozen_set_ticks | by apply pick_cached |].
    exists k'. by rewrite loop_var_cons.
Qed.

(** *** Which candidate the probe keeps *)

Lemma kept_pick t ttl c pre g newest :
  kept t ttl c pre newest -> kept t ttl c (pre ++ [g]) (pick t ttl c g newest).
Proof.
  intros Hk. unfold pick. destruct (valid_at t ttl c g) eqn:Hv.
  - destruct (valid_at_age _ _ _ _ Hv) as (a1 & Ha1 & _).
    assert (Hnew : (forall j g', pre !! j = Some g' -> valid_at t ttl c g' = true ->
                      exists a', age_at t c g' = Some a' /\ a1 < a') ->
                   kept t ttl c (pre ++ [g]) (Some g)).
    { intros Hold. exists (length pre). split; [|split; [done|]].
      - rewrite lookup_app_r by lia. by rewrite Nat.sub_diag.
      - intros j g' Hj Hv'. apply lookup_app_Some in Hj as [Hj|[Hlen Hj]].
        + destruct (Hold j g' Hj Hv') as (a' & Ha' & Hlt).
          exists a1, a'. repeat split; [done|done|lia|lia].
        + apply list_lookup_singleton_Some in Hj as [Hj <-].
          exists a1, a1. repeat split; [done|done|lia|lia]. }
    destruct newest as [n|]; simpl in Hk.
    + destruct Hk as (i & Hi & Hvn & Hmin).
      destruct (valid_at_age _ _ _ _ Hvn) as (a2 & Ha2 & _).
      rewrite Ha1, Ha2. destruct (a1 <? a2) eqn:Hlt.
      * apply Hnew. intros j g' Hj Hv'.
        destruct (Hmin j g' Hj Hv') as (a & a' & Ha & Ha' & Hle & _).
        exists a'. split; [done|]. rewrite Ha2 in Ha. injection Ha as <-. lia.
      * exists i. split; [by apply lookup_app_l_Some|split; [done|]].
        intros j g' Hj Hv'. apply lookup_app_Some in Hj as [Hj|[Hlen Hj]].
        -- by apply Hmin.
        -- apply list_lookup_singleton_Some in Hj as [Hj <-].
           exists a2, a1. apply lookup_lt_Some in Hi.
           repeat split; [done|done|lia|lia].
    + apply Hnew. intros j g' Hj Hv'.
      rewrite (Hk g') in Hv'; [done|]. by eapply list_elem_of_lookup_2.
  - destruct newest as [n|]; simpl in *.
    + destruct Hk as (i & Hi & Hvn & Hmin). exists i.
      split; [by apply lookup_app_l_Some|split; [done|]].
      intros j g' Hj Hv'. apply lookup_app_Some in Hj as [Hj|[Hlen Hj]].
      * by apply Hmin.
      * apply list_lookup_singleton_Some in Hj as [_ <-]. congruence.
    + intros g' [Hin| ->%list_elem_of_singleton]%elem_of_app; [by apply Hk|done].
Qed.

Lemma kept_select t ttl c gs pre newest :
  kept t ttl c pre newest -> kept t ttl c (pre ++ gs) (select t ttl c gs newest).
Proof.
  revert pre newest. induction gs as [|g gs IH]; intros pre newest Hk; simpl.
  - by rewrite app_nil_r.
  - change (g :: gs) with ([g] ++ gs)%list. rewrite app_assoc.
    apply IH. by apply kept_pick.
Qed.

Lemma kept_start t ttl c gs : kept t ttl c gs (select t ttl c gs None).
Proof.
  apply (kept_select t ttl c gs [] None). intros g Hg. by apply elem_of_nil in Hg.
Qed.

(** ** [retrieve] and [_get], branch by branch *)

Lemma api_known w key e :
  api w !! key = Some e -> bool_decide (is_Some (api w !! key)) = true.
Proof. intros H. apply bool_decide_eq_true. by rewrite H. Qed.

Lemma api_unknown w key :
  api w !! key = None -> bool_decide (is_Some (api w !! key)) = false.
Proof. intros H. apply bool_decide_eq_false. rewrite H. by intros [? ?]. Qed.

(** A key outside the API: nothing happens. *)
Lemma retrieve_unknown key w :
  api w !! key = None -> retrieve key w = (Ok None, w).
Proof.
  intros H. unfold retrieve, bind, api_has_key. by rewrite (api_unknown _ _ H).
Qed.

(** What [retrieve] does once the probe has ended with [newest] bound
    to [n]: the cached data are indexed by the whole path of [n], and
    the getter handed on is the one the loop variable holds. *)
Lemma retrieve_after_hit key e n cur k w :
  api w !! key = Some e ->
  check_cache (getters e) None None w = (Ok (Some n, cur), set_ticks k w) ->
  retrieve key w
  = (match cache w !! fst n with
     | Some ce =>
         match getitem (data ce) (snd n) with
         | Ok response =>
             match cur with
             | Some g => Ok (Some (e, g, response))
             | None => Raise NameError
             end
         | Raise x => Raise x
         end
     | None => Raise KeyError
     end, set_ticks k w).
Proof.
  intros He Hp. unfold retrieve, bind, api_has_key, api_getitem.
  rewrite (api_known _ _ _ He). simpl. rewrite He, Hp.
  unfold bind, cache_getitem, lift, ret, local. simpl.
  destruct (cache w !! n.1) as [ce|]; [|done].
  destruct (getitem (data ce) n.2); [|done].
  by destruct cur.
Qed.

(** Some candidate valid at every reading: nothing changes but the
    count of clock reads. *)
Lemma retrieve_hit_state key e g w :
  api w !! key = Some e -> g ∈ getters e -> valid_throughout w g ->
  exists k, snd (retrieve key w) = set_ticks k w.
Proof.
  intros He Hin Hv.
  destruct (check_cache_total (getters e) None None w)
    as (newest & k & Hp & _ & _ & Hsome); [by intros ?|].
  destruct Hsome as [n ->]; [by exists g|].
  exists k. by rewrite (retrieve_after_hit key e n _ k w He Hp).
Qed.

(** No candidate with a usable entry: one GET of the first getter. *)
Lemma retrieve_miss key e g0 rest w :
  api w !! key = Some e -> getters e = g0 :: rest ->
  (forall g, g ∈ getters e -> missing_or_expired w g) ->
  exists k,
    retrieve key w
    = match device w (fst g0) with
      | Ok payload =>
          (Ok (Some (e, g0, payload)),
           mkState (cacheExpiry w)
             (<[fst g0 := mkCacheEntry (fst g0) payload (clock w k)]> (cache w))
             (api w) (clock w) (S k) (device w) (requests w ++ [fst g0]))
      | Raise x =>
          (Raise x,
           mkState (cacheExpiry w) (cache w) (api w) (clock w) k (device w)
             (requests w ++ [fst g0]))
      end.
Proof.
  intros He Hg Hall. unfold retrieve, bind, api_has_key, api_getitem.
  rewrite (api_known _ _ _ He). simpl. rewrite He.
  destruct (check_cache_skips (getters e) None None w Hall) as [k ->].
  rewrite Hg. unfold bind, lift, http_get, CacheEntry_init, now, cache_setitem, ret.
  simpl. exists k. by destruct (device w g0.1).
Qed.

(** Whatever the clock does, a call either only reads the clock or, in
    addition, issues one GET of the first getter and, when that
    succeeds, stores its outcome under that getter's location. *)
Lemma retrieve_effect key w :
  ticked w (snd (retrieve key w)) \/
  exists e g0 k, api w !! key = Some e /\ first (getters e) = Ok g0 /\
    match device w (fst g0) with
    | Ok payload =>
        snd (retrieve key w)
        = mkState (cacheExpiry w)
            (<[fst g0 := mkCacheEntry (fst g0) payload (clock w k)]> (cache w))
            (api w) (clock w) (S k) (device w) (requests w ++ [fst g0])
    | Raise _ =>
        snd (retrieve key w)
        = mkState (cacheExpiry w) (cache w) (api w) (clock w) k (device w)
            (requests w ++ [fst g0])
    end.
Proof.
  destruct (api w !! key) as [e|] eqn:He.
  2:{ rewrite (retrieve_unknown _ _ He). left. apply ticked_refl. }
  unfold retrieve, bind, api_has_key, api_getitem.
  rewrite (api_known _ _ _ He). simpl. rewrite He.
  pose proof (check_cache_ticked (getters e) None None w) as Hp.
  destruct (check_cache (getters e) None None w) as [[[newest cur]|x] w1];
    simpl in Hp; [|by left].
  destruct Hp as [k ->]. destruct newest as [n|].
  - left. unfold bind, cache_getitem, lift, ret. simpl.
    destruct (cache w !! n.1) as [ce|]; simpl; [|tick].
    destruct (getitem (data ce) n.2); simpl; [|tick].
    unfold local. destruct cur; simpl; tick.
  - unfold bind, lift, http_get, CacheEntry_init, now, cache_setitem, ret.
    destruct (getters e) as [|g0 rest] eqn:Hg; simpl; [left; tick|].
    right. exists e, g0, k. split; [done|]. split; [by rewrite Hg|].
    by destruct (device w g0.1).
Qed.

(** The descent and the value mapping touch neither the object nor its
    environment. *)
Lemma _get_state key raw w : snd (_get key raw w) = snd (retrieve key w).
Proof.
  unfold _get, bind, lift, ret.
  destruct (retrieve key w) as [[[[[e g] response]|]|x] w1]; simpl; try done.
  by destruct (descend _ response).
Qed.

Lemma _get_found key raw w e g response w1 :
  retrieve key w = (Ok (Some (e, g, response)), w1) ->
  _get key raw w
  = (match descend (split "/" (snd g)) response with
     | Ok v => Ok (map_response raw e v)
     | Raise x => Raise x
     end, w1).
Proof.
  intros H. unfold _get, bind, lift, ret. rewrite H.
  by destruct (descend _ response).
Qed.


(** The cache-hit branch of [_get] under a clock standing still: the
    winner's cached data, indexed by the winner's whole path, then
    walked down along the path of the last getter of the list. *)
Lemma _get_hit t key raw e w :
  frozen t w -> api w !! key = Some e ->
  is_Some (select t (cacheExpiry w) (cache w) (getters e) None) ->
  exists n ce g k,
    select t (cacheExpiry w) (cache w) (getters e) None = Some n /\
    cache w !! fst n = Some ce /\ last (getters e) = Some g /\
    _get key raw w
    = (match getitem (data ce) (snd n) with
       | Ok response =>
           match descend (split "/" (snd g)) response with
           | Ok v => Ok (map_response raw e v)
           | Raise x => Raise x
           end
       | Raise x => Raise x
       end, set_ticks k w).
Proof.
  intros Ht He [n Hsel].
  destruct (check_cache_frozen t (getters e) None None w Ht) as [k Hp]; [by intros ?|].
  rewrite Hsel, loop_var_None in Hp.
  pose proof (kept_start t (cacheExpiry w) (cache w) (getters e)) as Hk.
  rewrite Hsel in Hk. destruct Hk as (i & Hi & Hv & _).
  apply valid_at_cached in Hv as (ce & Hce & _).
  destruct (last (getters e)) as [g|] eqn:Hlast.
  2:{ apply last_None in Hlast. by rewrite Hlast in Hi. }
  exists n, ce, g, k. split; [done|]. split; [done|]. split; [done|].
  pose proof (retrieve_after_hit key e n (Some g) k w He Hp) as Hr.
  rewrite Hce in Hr. unfold _get, bind, lift, ret. rewrite Hr.
  destruct (getitem (data ce) n.2); [|done].
  by destruct (descend _ _).
Qed.

(** *** The descent *)




(** *** Facts about the worked situations *)

Lemma ex_expired_tstat path :
  forall g : getter, g ∈ [("/tstat", path)] -> missing_or_expired ex_expired g.
Proof.
  intros g ->%list_elem_of_singleton.
  right. eexists. split; [reflexivity|]. intros n. simpl. lia.
Qed.

(** ** The claims *)

(** C1 (cache hit): the value should come from the winning getter's
    cached payload by one descent of that getter's own path.  The code
    indexes the cached payload by the whole of [newest[1]] and then runs
    the descent loop on the result, with the path of the loop variable
    [getter].  With [/tstat] cached and valid, ["tmode"] should give 2;
    the call raises [TypeError] from [2["tmode"]].  With two getters and
    only the first one cached, the winner's path ["x"] leads to the
    object under ["x"]; the call returns 7, found by also applying the
    path ["y"] of the other getter. *)
Theorem C1_cache_hit_indexes_again :
  (select 1000000 5000000 (cache ex_cached) [("/tstat", "tmode")] None
     = Some ("/tstat", "tmode") /\
   descend (split "/" "tmode") tstat_payload = Ok (PInt 2) /\
   _get "tmode" true ex_cached = (Raise TypeError, set_ticks 2 ex_cached)) /\
  (select 1000000 5000000 (cache ex_two) [("/a", "x"); ("/b", "y")] None
     = Some ("/a", "x") /\
   descend (split "/" "x") ex_two_payload = Ok (PDict {[ "y" := PInt 7 ]}) /\
   _get "k" true ex_two = (Ok (PInt 7), set_ticks 2 ex_two)).
Proof. repeat split; vm_compute; reflexivity. Qed.

(** C2 (two keys, one endpoint): after the fan mode was fetched from
    [/tstat], asking for the thermostat mode two seconds later should
    issue no further GET and give 2 from the cached payload.  The first
    call fetches and returns ["auto"]; the second issues no GET, as
    claimed, but raises [TypeError] instead of returning 2: the cached
    field is indexed a second time. *)
Theorem C2_second_key_raises :
  let w1 := snd (_get "fmode" false ex_start) in
  let w2 := at_time 2000000 w1 in
  fst (_get "fmode" false ex_start) = Ok (PStr "auto") /\
  requests w1 = ["/tstat"] /\
  cache w1 !! "/tstat" = Some (mkCacheEntry "/tstat" tstat_payload 0) /\
  descend (split "/" "tmode") tstat_payload = Ok (PInt 2) /\
  fst (_get "tmode" false w2) = Raise TypeError /\
  requests (snd (_get "tmode" false w2)) = ["/tstat"].
Proof. repeat split; vm_compute; reflexivity. Qed.

(** C3 (which cached candidate wins), as claimed: of two valid
    candidates of equal age the one earlier in the list wins, in every
    call.  Two getters that share one cache entry are equally old at
    every instant and both valid; yet when the clock moves between the
    two reads of the comparison, the age read second is the larger and
    the later getter replaces the earlier one.  With the same cache
    under a clock standing still the earlier one is kept. *)
Lemma C3_later_of_equals_wins :
  valid_throughout ex_shared ("/tstat", "fmode") /\
  valid_throughout ex_shared ("/tstat", "tmode") /\
  (forall t, age_at t (cache ex_shared) ("/tstat", "fmode")
             = age_at t (cache ex_shared) ("/tstat", "tmode")) /\
  ex_shared_getters !! 0%nat = Some ("/tstat", "fmode") /\
  ex_shared_getters !! 1%nat = Some ("/tstat", "tmode") /\
  fst (check_cache ex_shared_getters None None ex_shared)
  = Ok (Some ("/tstat", "tmode"), Some ("/tstat", "tmode")) /\
  fst (check_cache ex_shared_getters None None (at_time 1000000 ex_shared))
  = Ok (Some ("/tstat", "fmode"), Some ("/tstat", "tmode")).
Proof.
  assert (Hv : forall path, valid_throughout ex_shared ("/tstat", path)).
  { intros path. eexists. split; [reflexivity|]. intros n. simpl. lia. }
  split; [apply Hv|]. split; [apply Hv|]. split; [done|].
  repeat split; vm_compute; reflexivity.
Qed.

(** C3, amended: the loop over the getters never raises and ends with
    [newest] bound to the freshest valid candidate, in this sense.
    Under a clock standing still at [t], where every entry has one age,
    it is a valid candidate than which none is younger and which is
    strictly younger than every valid candidate before it in the list:
    the first of the youngest.  Under a clock that keeps running
    ([steady]) it is a valid candidate fetched no earlier than any
    other valid candidate.  [newest] stays unbound only when no
    candidate is valid. *)
Theorem C3_probe_keeps_first_youngest gs w :
  (steady w gs ->
   exists newest k,
     check_cache gs None None w = (Ok (newest, last gs), set_ticks k w) /\
     match newest with
     | Some n => latest w gs n
     | None => forall g, g ∈ gs -> missing_or_expired w g
     end) /\
  (forall t, frozen t w ->
   exists newest k,
     check_cache gs None None w = (Ok (newest, last gs), set_ticks k w) /\
     match newest with
     | Some n => exists i, freshest t (cacheExpiry w) (cache w) gs i n
     | None => forall g, g ∈ gs -> valid_at t (cacheExpiry w) (cache w) g = false
     end).
Proof.
  split.
  - intros Hs.
    destruct (check_cache_steady gs gs [] None None w Hs) as (newest & k & Hp & Hk).
    + by intros x.
    + intros g Hg. by apply elem_of_nil in Hg.
    + exists newest, k. rewrite loop_var_None in Hp. by split.
  - intros t Ht.
    destruct (check_cache_frozen t gs None None w Ht) as [k Hk]; [by intros ?|].
    exists (select t (cacheExpiry w) (cache w) gs None), k. split.
    + by rewrite Hk, loop_var_None.
    + apply kept_start.
Qed.

Lemma C3_witness :
  exists newest k,
    check_cache ex_three_getters None None ex_three
      = (Ok (newest, last ex_three_getters), set_ticks k ex_three) /\
    match newest with
    | Some n => exists i, freshest 4000000 (cacheExpiry ex_three) (cache ex_three)
                            ex_three_getters i n
    | None => forall g, g ∈ ex_three_getters ->
                valid_at 4000000 (cacheExpiry ex_three) (cache ex_three) g = false
    end.
Proof.
  destruct (C3_probe_keeps_first_youngest ex_three_getters ex_three) as [_ Hstill].
  apply (Hstill 4000000). intros n. reflexivity.
Defined.

(** Of two candidates both cached one second ago, the earlier wins over
    the later, and both over the one cached three seconds ago. *)
Example probe_three :
  fst (check_cache ex_three_getters None None ex_three)
  = Ok (Some ("/b", "x"), Some ("/c", "x")).
Proof. vm_compute. reflexivity. Qed.

(** C4 (live-fetch fallback): for a key of the API whose candidates are
    all missing from the cache or expired, the call issues one GET, to
    the location of the first getter; the decoded answer is stored in
    the cache under that location, replacing what was there, stamped
    with the clock's reading at that moment; and the returned value is
    found by walking that answer down the first getter's path.  Nothing
    else changes but the count of clock reads. *)
Theorem C4_live_fetch_uses_first_getter key raw e g0 rest payload w :
  api w !! key = Some e -> getters e = g0 :: rest ->
  (forall g, g ∈ getters e -> missing_or_expired w g) ->
  device w (fst g0) = Ok payload ->
  exists k,
    _get key raw w
    = (match descend (split "/" (snd g0)) payload with
       | Ok v => Ok (map_response raw e v)
       | Raise x => Raise x
       end,
       mkState (cacheExpiry w)
         (<[fst g0 := mkCacheEntry (fst g0) payload (clock w k)]> (cache w))
         (api w) (clock w) (S k) (device w) (requests w ++ [fst g0])).
Proof.
  intros He Hg Hall Hdev.
  destruct (retrieve_miss key e g0 rest w He Hg Hall) as [k Hk].
  rewrite Hdev in Hk. exists k.
  unfold _get, bind, lift, ret. rewrite Hk.
  by destruct (descend _ payload).
Qed.

Lemma C4_witness :
  exists k,
    _get "fmode" false ex_expired
    = (match descend (split "/" "fmode") tstat_payload with
       | Ok v => Ok (map_response false fmode_entry v)
       | Raise x => Raise x
       end,
       mkState 5000000
         (<["/tstat" := mkCacheEntry "/tstat" tstat_payload (clock ex_expired k)]>
            (cache ex_expired))
         ex_api (clock ex_expired) (S k) (device ex_expired) ([] ++ ["/tstat"])).
Proof.
  apply (C4_live_fetch_uses_first_getter "fmode" false fmode_entry
           ("/tstat", "fmode") [] tstat_payload ex_expired).
  - reflexivity.
  - reflexivity.
  - apply ex_expired_tstat.
  - reflexivity.
Defined.



(** One microsecond before the expiry the entry is still used; at the
    expiry, and with an expiry of 0, the device is asked again. *)
Example expiry_boundary :
  requests (snd (_get "fmode" false (at_time 4999999 ex_cached))) = [] /\
  requests (snd (_get "fmode" false (at_time 5000000 ex_cached))) = ["/tstat"] /\
  requests (snd (_get "fmode" false (snd (setCacheExpiry 0 (at_time 0 ex_cached)))))
  = ["/tstat"].
Proof. repeat split; vm_compute; reflexivity. Qed.

(** C6 (unknown key), as claimed: a key outside the API makes the call
    fail with an error.  It does not: the call returns [None]. *)
Lemma C6_unknown_key_no_error :
  api ex_start !! "humidity" = None /\
  fst (_get "humidity" false ex_start) = Ok PNone /\
  ~ (exists x, fst (_get "humidity" false ex_start) = Raise x).
Proof.
  split; [reflexivity|]. split; [reflexivity|].
  intros [x Hx]. vm_compute in Hx. discriminate.
Qed.

(** C6, amended: for a key outside the API the call returns [None]
    without raising, issues no GET, reads no clock and leaves the cache
    as it was. *)
Theorem C6_unknown_key_returns_None key raw w :
  api w !! key = None -> _get key raw w = (Ok PNone, w).
Proof.
  intros H. unfold _get, bind. by rewrite (retrieve_unknown key w H).
Qed.

Lemma C6_witness : _get "humidity" false ex_start = (Ok PNone, ex_start).
Proof.
  apply (C6_unknown_key_returns_None "humidity" false ex_start). reflexivity.
Defined.

(** [_get] itself honours [raw]: once the value [v] has been
    extracted, a call with [raw] set returns [v] itself, whatever the
    value map holds; a call without [raw] returns the same [v], in the
    same final state, when the entry has no value map or the value map
    has nothing for [v] (the lookup raises, for a missing or an
    unhashable key, and the exception is swallowed). *)
Lemma get_raw_and_remap_miss key w e g response w1 v :
  retrieve key w = (Ok (Some (e, g, response)), w1) ->
  descend (split "/" (snd g)) response = Ok v ->
  _get key true w = (Ok v, w1) /\
  ((valueMap e = None \/
    exists vm, valueMap e = Some vm /\ forall d, dict_getitem vm v <> Ok d) ->
   _get key false w = (Ok v, w1)).
Proof.
  intros Hr Hd. rewrite !(_get_found key _ w e g response w1 Hr), Hd.
  unfold map_response. split; [done|].
  intros [->|(vm & -> & Hmiss)]; [done|].
  destruct (dict_getitem vm v) as [d|x] eqn:Hvm; [|done].
  by destruct (Hmiss d).
Qed.

Lemma get_raw_and_remap_miss_odd :
  _get "fmode" true ex_odd = (Ok (PInt 7), snd (retrieve "fmode" ex_odd)) /\
  _get "fmode" false ex_odd = (Ok (PInt 7), snd (retrieve "fmode" ex_odd)).
Proof.
  destruct (get_raw_and_remap_miss "fmode" ex_odd fmode_entry
              ("/tstat", "fmode") (PDict {[ "fmode" := PInt 7 ]})
              (snd (retrieve "fmode" ex_odd)) (PInt 7)) as [Hraw Hmap].
  - vm_compute. reflexivity.
  - vm_compute. reflexivity.
  - split; [exact Hraw|]. apply Hmap. right. eexists. split; [reflexivity|].
    intros d Hd. vm_compute in Hd. discriminate.
Defined.

(** C7 (raw flag and remap miss, for every accessor call): a call with
    [raw] set should return the extracted value as it is.  [_get] does,
    and so do the accessors that pass [raw] on: the fan mode comes back
    as 1 with [raw] and as ["auto"] without.  The four usage accessors
    and [getSetPoints] take [raw] and do not pass it on: with the usage
    entry mapping 42 to a label, [getHeatUsageToday(raw=True)] returns
    the label, and with the heat entry mapping 68 to a label,
    [getSetPoints(raw=True)] returns the label where
    [getHeatPoint(raw=True)] returns 68.  The other half holds for
    every accessor: a value that the value map does not list (fan mode
    7) comes back as it is, with [raw] and without. *)
Theorem C7_accessors_map_despite_raw :
  (fst (_get "today_heat_runtime" true ex_start) = Ok (PInt 42) /\
   fst (getHeatUsageToday true ex_start) = Ok (PStr "forty-two")) /\
  (fst (getHeatPoint true ex_points_mapped) = Ok (PInt 68) /\
   fst (getSetPoints true ex_points_mapped) = Ok (PStr "warm", PInt 75)) /\
  (fst (getFanMode true ex_start) = Ok (PInt 1) /\
   fst (getFanMode false ex_start) = Ok (PStr "auto")) /\
  (fst (getFanMode true ex_odd) = Ok (PInt 7) /\
   fst (getFanMode false ex_odd) = Ok (PInt 7)).
Proof. repeat split; vm_compute; reflexivity. Qed.



(** The nested path on a usage log with and without the runtime. *)
Example nested_path :
  split "/" "today/heat_runtime" = ["today"; "heat_runtime"] /\
  fst (_get "today_heat_runtime" true ex_start) = Ok (PInt 42) /\
  fst (_get "today_heat_runtime" true ex_empty_day) = Raise KeyError.
Proof. repeat split; vm_compute; reflexivity. Qed.

(** C9 (raw flag of every accessor): the four usage accessors take
    [raw] and call [_get] without it, so a value map on their key is
    applied even when the caller sets [raw].  Here the usage entry maps
    42 to a label: [_get] with [raw] set gives 42, as the fan-mode
    accessor gives the unmapped 1, but [getHeatUsageToday(raw=True)]
    gives the label. *)
Theorem C9_usage_accessors_drop_raw :
  fst (_get "today_heat_runtime" true ex_start) = Ok (PInt 42) /\
  fst (getHeatUsageToday true ex_start) = Ok (PStr "forty-two") /\
  fst (getFanMode true ex_start) = Ok (PInt 1) /\
  (forall raw, getHeatUsageToday raw = _get "today_heat_runtime" false /\
               getHeatUsageYesterday raw = _get "yesterday_heat_runtime" false /\
               getCoolUsageToday raw = _get "today_cool_runtime" false /\
               getCoolUsageYesterday raw = _get "yesterday_cool_runtime" false).
Proof.
  split; [vm_compute; reflexivity|]. split; [vm_compute; reflexivity|].
  split; [vm_compute; reflexivity|]. done.
Qed.

(** C10 (the cache on a hit): a call whose probe ends with [newest]
    bound, as it does for a key one of whose candidates has an entry
    valid at every reading of the clock, leaves the object and its
    environment as they were, up to the count of clock reads: the cache
    keeps its entries, their payloads and their timestamps, and no GET
    is issued.  And in every call, the cache is either left as it was
    or the call has issued one GET, of the first getter's location, and
    stored the decoded answer under that location: the cache changes in
    no other way. *)
Theorem C10_cache_untouched_on_hit key raw w :
  (forall e n cur w1,
     api w !! key = Some e ->
     check_cache (getters e) None None w = (Ok (Some n, cur), w1) ->
     exists k, snd (_get key raw w) = set_ticks k w) /\
  (forall e g,
     api w !! key = Some e -> g ∈ getters e -> valid_throughout w g ->
     exists k, snd (_get key raw w) = set_ticks k w) /\
  (cache (snd (_get key raw w)) = cache w \/
   exists e g0 payload k,
     api w !! key = Some e /\ first (getters e) = Ok g0 /\
     device w (fst g0) = Ok payload /\
     snd (_get key raw w)
     = mkState (cacheExpiry w)
         (<[fst g0 := mkCacheEntry (fst g0) payload (clock w k)]> (cache w))
         (api w) (clock w) (S k) (device w) (requests w ++ [fst g0])).
Proof.
  split; [|split].
  - intros e n cur w1 He Hp. rewrite _get_state.
    pose proof (check_cache_ticked (getters e) None None w) as [k Hk].
    rewrite Hp in Hk. simpl in Hk. subst w1.
    exists k. by rewrite (retrieve_after_hit key e n cur k w He Hp).
  - intros e g He Hin Hv. rewrite _get_state. by eapply retrieve_hit_state.
  - rewrite _get_state.
    destruct (retrieve_effect key w) as [[k ->]|(e & g0 & k & He & Hg & Hw)]; [by left|].
    destruct (device w g0.1) as [payload|x] eqn:Hdev.
    + right. by exists e, g0, payload, k.
    + left. by rewrite Hw.
Qed.

Lemma C10_witness : exists k, snd (_get "fmode" false ex_cached) = set_ticks k ex_cached.
Proof.
  destruct (C10_cache_untouched_on_hit "fmode" false ex_cached) as (_ & Hhit & _).
  apply (Hhit fmode_entry ("/tstat", "fmode")).
  - reflexivity.
  - apply list_elem_of_here.
  - eexists. split; [reflexivity|]. intros n. simpl. lia.
Defined.

(** ** Further properties of the read path *)

(** *** Splitting a path *)

Lemma split_cons sep s : exists piece pieces, split sep s = piece :: pieces.
Proof.
  destruct s as [|c s]; simpl; [by eexists _, _|].
  destruct (Ascii.eqb c sep); [by eexists _, _|].
  destruct (split sep s); by eexists _, _.
Qed.

(** X1: [s.split(sep)] has one piece more than [s] has separators: it
    is never empty, and a string without separator, the empty one
    included, is its own single piece. *)
Theorem X1_split_pieces sep s :
  length (split sep s) = S (count_sep sep s) /\
  (count_sep sep s = 0%nat -> split sep s = [s]).
Proof.
  induction s as [|c s [IHlen IHone]]; simpl; [done|].
  destruct (Ascii.eqb c sep); simpl.
  - split; [by rewrite IHlen|done].
  - destruct (split sep s) as [|piece pieces] eqn:Hs; [done|]. simpl in *.
    split; [done|]. intros H0. specialize (IHone H0). by injection IHone as -> ->.
Qed.

Lemma X1_witness : split "/" "tmode" = ["tmode"].
Proof. apply (X1_split_pieces "/" "tmode"). reflexivity. Defined.

Lemma count_sep_piece c sep piece :
  Ascii.eqb c sep = false ->
  count_sep sep (String c piece) = count_sep sep piece.
Proof. intros H. simpl. by rewrite H. Qed.

Lemma concat_two d (x y : string) ys :
  String.concat d (x :: y :: ys) = (x ++ d ++ String.concat d (y :: ys))%string.
Proof. reflexivity. Qed.

(** X2: the pieces of [s.split(sep)] contain no separator, and joining
    them with the separator gives [s] back. *)
Theorem X2_split_join sep s :
  Forall (fun piece => has_sep sep piece = false) (split sep s) /\
  String.concat (String sep EmptyString) (split sep s) = s.
Proof.
  induction s as [|c s [IHall IHjoin]]; simpl.
  - split; [by repeat constructor|done].
  - destruct (Ascii.eqb c sep) eqn:Hc.
    + apply Ascii.eqb_eq in Hc as ->. split; [by constructor|].
      destruct (split_cons sep s) as (piece & pieces & Hs).
      rewrite Hs in *. by rewrite concat_two, IHjoin.
    + destruct (split sep s) as [|piece pieces] eqn:Hs.
      { destruct (split_cons sep s) as (? & ? & Hne). congruence. }
      apply Forall_cons in IHall as [Hp Hps]. split.
      * constructor; [|done]. unfold has_sep in *.
        by rewrite (count_sep_piece c sep piece Hc).
      * destruct pieces as [|piece' pieces]; [simpl in *; by rewrite IHjoin|].
        rewrite concat_two. rewrite concat_two in IHjoin.
        by rewrite <- IHjoin at 1.
Qed.

Lemma split_app sep s1 s2 :
  split sep (s1 ++ String sep s2)%string = (split sep s1 ++ split sep s2)%list.
Proof.
  induction s1 as [|c s1 IH]; simpl.
  - by rewrite Ascii.eqb_refl.
  - destruct (Ascii.eqb c sep); [by rewrite IH|].
    rewrite IH. by destruct (split_cons sep s1) as (piece & pieces & ->).
Qed.

Lemma descend_app keys1 keys2 v :
  descend (keys1 ++ keys2) v
  = match descend keys1 v with
    | Ok u => descend keys2 u
    | Raise x => Raise x
    end.
Proof.
  revert v. induction keys1 as [|key keys1 IH]; intros v; simpl; [done|].
  destruct (getitem v key); [apply IH|done].
Qed.

(** X3: walking down the path [p1/p2] is walking down [p1] and, from
    where that ends, down [p2]; where the first walk fails, so does the
    whole, with the same exception. *)
Theorem X3_descend_nested_path p1 p2 v :
  descend (split "/" (p1 ++ String "/" p2)%string) v
  = match descend (split "/" p1) v with
    | Ok u => descend (split "/" p2) u
    | Raise x => Raise x
    end.
Proof. by rewrite split_app, descend_app. Qed.

(** *** The cache probe, whatever the clock and the cache *)

Lemma check_getter_winner g newest w :
  cached (cache w) newest ->
  exists newest' k,
    (ticks w <= k)%nat /\
    check_getter g newest w = (Ok newest', set_ticks k w) /\
    (newest' = newest \/
     newest' = Some g /\
     exists ce, cache w !! fst g = Some ce /\
                clock w (ticks w) - time ce < cacheExpiry w).
Proof.
  intros Hc. unfold check_getter. run_step.
  destruct (cache w !! g.1) as [e|] eqn:He; simpl.
  - rewrite He. simpl.
    destruct (Z.ltb_spec (clock w (ticks w) - time e) (cacheExpiry w)) as [Hlt|Hge].
    + assert (Hwin : exists ce, Some e = Some ce /\
                clock w (ticks w) - time ce < cacheExpiry w) by (by exists e).
      destruct newest as [n|]; simpl.
      * destruct (Hc n eq_refl) as [e' He']. rewrite He'. simpl.
        destruct (_ <? _); eexists _, _; (split; [|split; [reflexivity|]]); eauto; lia.
      * eexists _, _. split; [|split; [reflexivity|]]; eauto; lia.
    + eexists _, _. split; [|split; [reflexivity|]]; eauto; lia.
  - exists newest, (ticks w). rewrite set_ticks_same. split; [lia|]. by split; [|left].
Qed.

Lemma check_cache_winner gs newest cur w :
  cached (cache w) newest ->
  exists newest' k,
    (ticks w <= k)%nat /\
    check_cache gs newest cur w = (Ok (newest', loop_var gs cur), set_ticks k w) /\
    (newest' = newest \/
     exists n ce j, newest' = Some n /\ n ∈ gs /\ cache w !! fst n = Some ce /\
                    (ticks w <= j)%nat /\ clock w j - time ce < cacheExpiry w).
Proof.
  revert newest cur w. induction gs as [|g gs IH]; intros newest cur w Hc.
  - exists newest, (ticks w). rewrite set_ticks_same. split; [lia|]. by split; [|left].
  - simpl. unfold bind.
    destruct (check_getter_winner g newest w Hc) as (n1 & k & Hk & -> & H1).
    assert (Hc1 : cached (cache w) n1).
    { destruct H1 as [->|(-> & ce & Hce & _)]; [done|].
      intros n [= <-]. by rewrite Hce. }
    destruct (IH n1 (Some g) (set_ticks k w) Hc1) as (n2 & k' & Hk' & -> & H2).
    simpl in Hk'. exists n2, k'. rewrite loop_var_cons.
    split; [lia|]. split; [done|].
    destruct H2 as [->|(n & ce & j & -> & Hin & Hce & Hj & Hlt)].
    + destruct H1 as [->|(-> & ce & Hce & Hlt)]; [by left|].
      right. exists g, ce, (ticks w). repeat split; try done. apply list_elem_of_here.
    + right. exists n, ce, j. simpl in Hj. repeat split; try done; [|lia].
      by apply list_elem_of_further.
Qed.

(** X4: the loop over the getters never raises, whatever the clock and
    the cache hold: the [TypeError] of the first valid candidate is
    caught, and the entry of [newest] is always there to be looked up.
    The loop only reads the clock.  When it ends with [newest] bound,
    that is a getter of the list whose location is cached with an entry
    that was younger than the expiry at one of the readings taken; and
    the loop variable holds the last getter of the list. *)
Theorem X4_probe_never_raises gs w :
  exists newest k,
    (ticks w <= k)%nat /\
    check_cache gs None None w = (Ok (newest, last gs), set_ticks k w) /\
    forall n, newest = Some n ->
      n ∈ gs /\
      exists ce j, cache w !! fst n = Some ce /\
                   (ticks w <= j)%nat /\ clock w j - time ce < cacheExpiry w.
Proof.
  destruct (check_cache_winner gs None None w) as (newest & k & Hk & Hp & Hw);
    [by intros ?|].
  exists newest, k. rewrite loop_var_None in Hp. split; [done|]. split; [done|].
  intros n ->. destruct Hw as [|(n' & ce & j & [= <-] & Hin & Hce & Hj & Hlt)]; [done|].
  split; [done|]. by exists ce, j.
Qed.

(** *** What a call can change *)

(** X5: a call of [_get], whether it returns or raises, leaves the API
    table, the expiry, the clock and the device as they were; it issues
    at most one GET; and the cache either stays as it was or changes at
    the one location that was fetched: no entry is ever removed and no
    other entry touched. *)
Theorem X5_get_frame key raw w :
  let w' := snd (_get key raw w) in
  api w' = api w /\ cacheExpiry w' = cacheExpiry w /\
  clock w' = clock w /\ device w' = device w /\
  (forall loc, is_Some (cache w !! loc) -> is_Some (cache w' !! loc)) /\
  ((requests w' = requests w /\ cache w' = cache w) \/
   exists loc, requests w' = (requests w ++ [loc])%list /\
     forall loc', loc' <> loc -> cache w' !! loc' = cache w !! loc').
Proof.
  simpl. rewrite _get_state.
  destruct (retrieve_effect key w) as [[k ->]|(e & g0 & k & _ & _ & Hw)].
  - repeat split; try done. by left.
  - destruct (device w g0.1) as [payload|x]; rewrite Hw; simpl.
    + repeat split; try done.
      * intros loc Hloc. destruct (decide (g0.1 = loc)) as [->|Hne].
        -- by rewrite lookup_insert_eq.
        -- by rewrite lookup_insert_ne.
      * right. exists g0.1. split; [done|].
        intros loc' Hne. by rewrite lookup_insert_ne.
    + repeat split; try done. right. by exists g0.1.
Qed.

(** *** Edges of the live fetch *)

Lemma check_getter_stale g newest w :
  stale_from_now w g ->
  exists k, (ticks w <= k)%nat /\ check_getter g newest w = (Ok newest, set_ticks k w).
Proof.
  intros [Hn|(ce & Hce & Hexp)]; unfold check_getter; run_step.
  - rewrite Hn. simpl. exists (ticks w). by rewrite set_ticks_same.
  - rewrite Hce. simpl. rewrite Hce.
    destruct (Z.ltb_spec (clock w (ticks w) - time ce) (cacheExpiry w)) as [Hlt|_].
    + specialize (Hexp (ticks w)). lia.
    + eexists. split; [|reflexivity]. lia.
Qed.

Lemma stale_later k w g :
  (ticks w <= k)%nat -> stale_from_now w g -> stale_from_now (set_ticks k w) g.
Proof.
  intros Hk [Hn|(ce & Hce & Hexp)]; [by left|].
  right. exists ce. split; [done|]. intros n Hn. apply Hexp. simpl in Hn. lia.
Qed.

Lemma check_cache_stale gs newest cur w :
  (forall g, g ∈ gs -> stale_from_now w g) ->
  exists k, (ticks w <= k)%nat /\
    check_cache gs newest cur w = (Ok (newest, loop_var gs cur), set_ticks k w).
Proof.
  revert cur w. induction gs as [|g gs IH]; intros cur w Hall.
  - exists (ticks w). by rewrite set_ticks_same.
  - simpl. unfold bind.
    destruct (check_getter_stale g newest w) as (k & Hk & ->);
      [apply Hall, list_elem_of_here|].
    destruct (IH (Some g) (set_ticks k w)) as (k' & Hk' & ->).
    { intros g' Hg'. apply stale_later; [done|]. apply Hall.
      by apply list_elem_of_further. }
    simpl in Hk'. exists k'. rewrite loop_var_cons. split; [lia|done].
Qed.

Lemma retrieve_stale key e g0 rest w :
  api w !! key = Some e -> getters e = g0 :: rest ->
  (forall g, g ∈ getters e -> stale_from_now w g) ->
  exists k, (ticks w <= k)%nat /\
    retrieve key w
    = match device w (fst g0) with
      | Ok payload =>
          (Ok (Some (e, g0, payload)),
           mkState (cacheExpiry w)
             (<[fst g0 := mkCacheEntry (fst g0) payload (clock w k)]> (cache w))
             (api w) (clock w) (S k) (device w) (requests w ++ [fst g0]))
      | Raise x =>
          (Raise x,
           mkState (cacheExpiry w) (cache w) (api w) (clock w) k (device w)
             (requests w ++ [fst g0]))
      end.
Proof.
  intros He Hg Hall. unfold retrieve, bind, api_has_key, api_getitem.
  rewrite (api_known _ _ _ He). simpl. rewrite He.
  destruct (check_cache_stale (getters e) None None w Hall) as (k & Hk & ->).
  rewrite Hg. unfold bind, lift, http_get, CacheEntry_init, now, cache_setitem, ret.
  simpl. exists k. split; [done|]. by destruct (device w g0.1).
Qed.

(** X6: when no candidate has a usable entry and the GET (or the
    decoding of its answer) raises, the call raises the same exception;
    the attempt is the only GET issued, and the cache is left as it
    was, stale entries included. *)
Theorem X6_failed_fetch_keeps_cache key raw e g0 rest x w :
  api w !! key = Some e -> getters e = g0 :: rest ->
  (forall g, g ∈ getters e -> stale_from_now w g) ->
  device w (fst g0) = Raise x ->
  exists k,
    _get key raw w
    = (Raise x,
       mkState (cacheExpiry w) (cache w) (api w) (clock w) k (device w)
         (requests w ++ [fst g0])).
Proof.
  intros He Hg Hall Hdev.
  destruct (retrieve_stale key e g0 rest w He Hg Hall) as (k & _ & Hr).
  rewrite Hdev in Hr. exists k. unfold _get, bind. by rewrite Hr.
Qed.

Lemma X6_witness :
  exists k,
    _get "fmode" false ex_down
    = (Raise IOError,
       mkState (cacheExpiry ex_down) (cache ex_down) (api ex_down) (clock ex_down) k
         (device ex_down) (requests ex_down ++ ["/tstat"])).
Proof.
  apply (X6_failed_fetch_keeps_cache "fmode" false fmode_entry ("/tstat", "fmode") []
           IOError ex_down).
  - reflexivity.
  - reflexivity.
  - intros g ->%list_elem_of_singleton. right. eexists. split; [reflexivity|].
    intros n _. simpl. lia.
  - reflexivity.
Defined.

(** X7: a key of the API whose entry has no getter makes the call raise
    [IndexError] at [entry.getters[0]]; nothing is fetched, read or
    changed. *)
Theorem X7_no_getter_raises key raw e w :
  api w !! key = Some e -> getters e = [] ->
  _get key raw w = (Raise IndexError, w).
Proof.
  intros He Hg. unfold _get, retrieve, bind, api_has_key, api_getitem.
  rewrite (api_known _ _ _ He). simpl. by rewrite He, Hg.
Qed.

Lemma X7_witness : _get "model" false ex_bare = (Raise IndexError, ex_bare).
Proof.
  apply (X7_no_getter_raises "model" false (mkAPIEntry [] None) ex_bare); reflexivity.
Defined.

(** *** The value of a cache hit *)

Lemma check_cache_hit gs w :
  (exists g, g ∈ gs /\ valid_throughout w g) ->
  exists n ce k,
    check_cache gs None None w = (Ok (Some n, last gs), set_ticks k w) /\
    n ∈ gs /\ cache w !! fst n = Some ce.
Proof.
  intros Hv.
  destruct (check_cache_total gs None None w) as (n1 & k1 & Hp1 & _ & _ & Hsome);
    [by intros ?|].
  destruct (Hsome Hv) as [n ->].
  destruct (check_cache_winner gs None None w) as (n2 & k2 & _ & Hp2 & Hw);
    [by intros ?|].
  rewrite Hp1 in Hp2. injection Hp2 as <- _.
  destruct Hw as [|(n' & ce & _ & [= <-] & Hin & Hce & _)]; [done|].
  exists n, ce, k1. by rewrite Hp1, loop_var_None.
Qed.

Lemma retrieve_hit_value key e w :
  api w !! key = Some e ->
  (exists g, g ∈ getters e /\ valid_throughout w g) ->
  exists n ce g k,
    n ∈ getters e /\ cache w !! fst n = Some ce /\ last (getters e) = Some g /\
    retrieve key w
    = (match getitem (data ce) (snd n) with
       | Ok response => Ok (Some (e, g, response))
       | Raise x => Raise x
       end, set_ticks k w).
Proof.
  intros He Hv.
  destruct (check_cache_hit (getters e) w Hv) as (n & ce & k & Hp & Hin & Hce).
  destruct (last (getters e)) as [g|] eqn:Hlast.
  2:{ apply last_None in Hlast. rewrite Hlast in Hin. by apply elem_of_nil in Hin. }
  exists n, ce, g, k. split; [done|]. split; [done|]. split; [done|].
  rewrite (retrieve_after_hit key e n (Some g) k w He Hp), Hce.
  by destruct (getitem (data ce) n.2).
Qed.

(** X8: on a cache hit, whatever the clock does, the value returned
    comes from the cached data of the getter the probe kept by indexing
    them with the whole path of that getter as one key, and then
    walking the result down the path of the last getter of the list
    (split at ["/"]), and mapping it; nothing changes but the count of
    clock reads.  The call returns a value only where both steps find
    what they index. *)
Theorem X8_value_of_cache_hit key raw e w :
  api w !! key = Some e ->
  (exists g, g ∈ getters e /\ valid_throughout w g) ->
  exists n ce g k,
    n ∈ getters e /\ cache w !! fst n = Some ce /\ last (getters e) = Some g /\
    _get key raw w
    = (match getitem (data ce) (snd n) with
       | Ok response =>
           match descend (split "/" (snd g)) response with
           | Ok v => Ok (map_response raw e v)
           | Raise x => Raise x
           end
       | Raise x => Raise x
       end, set_ticks k w).
Proof.
  intros He Hv.
  destruct (retrieve_hit_value key e w He Hv) as (n & ce & g & k & Hin & Hce & Hl & Hr).
  exists n, ce, g, k. split; [done|]. split; [done|]. split; [done|].
  unfold _get, bind, lift, ret. rewrite Hr.
  destruct (getitem (data ce) n.2); [|done].
  by destruct (descend _ _).
Qed.

Lemma X8_witness :
  exists n ce g k,
    n ∈ getters tmode_entry /\ cache ex_cached !! fst n = Some ce /\
    last (getters tmode_entry) = Some g /\
    _get "tmode" false ex_cached
    = (match getitem (data ce) (snd n) with
       | Ok response =>
           match descend (split "/" (snd g)) response with
           | Ok v => Ok (map_response false tmode_entry v)
           | Raise x => Raise x
           end
       | Raise x => Raise x
       end, set_ticks k ex_cached).
Proof.
  apply (X8_value_of_cache_hit "tmode" false tmode_entry ex_cached).
  - reflexivity.
  - exists ("/tstat", "tmode"). split; [apply list_elem_of_here|].
    eexists. split; [reflexivity|]. intros n. simpl. lia.
Defined.

Lemma descend_not_dict keys v :
  is_dict v = false -> keys <> [] -> descend keys v = Raise TypeError.
Proof. intros Hv Hk. destruct keys; [done|]. by destruct v. Qed.

Lemma split_not_nil sep s : split sep s <> [].
Proof. by destruct (split_cons sep s) as (piece & pieces & ->). Qed.

(** X9: a cache hit on a field that is not an object raises
    [TypeError].  For a key whose cached candidates all hold, under
    their path, a value that is no object (a number, a string, a list,
    [None]...), a call that finds one of them valid raises [TypeError]
    instead of returning the value, with or without [raw]. *)
Theorem X9_hit_on_plain_field_raises key raw e w :
  api w !! key = Some e ->
  (exists g, g ∈ getters e /\ valid_throughout w g) ->
  (forall g ce, g ∈ getters e -> cache w !! fst g = Some ce ->
     exists v, getitem (data ce) (snd g) = Ok v /\ is_dict v = false) ->
  exists k, _get key raw w = (Raise TypeError, set_ticks k w).
Proof.
  intros He Hv Hplain.
  destruct (retrieve_hit_value key e w He Hv) as (n & ce & g & k & Hin & Hce & _ & Hr).
  destruct (Hplain n ce Hin Hce) as (v & Hget & Hnd). rewrite Hget in Hr.
  exists k. rewrite (_get_found key raw w e g v _ Hr).
  by rewrite (descend_not_dict _ v Hnd (split_not_nil _ _)).
Qed.

Lemma X9_witness : exists k, _get "tmode" true ex_cached = (Raise TypeError, set_ticks k ex_cached).
Proof.
  apply (X9_hit_on_plain_field_raises "tmode" true tmode_entry ex_cached).
  - reflexivity.
  - exists ("/tstat", "tmode"). split; [apply list_elem_of_here|].
    eexists. split; [reflexivity|]. intros n. simpl. lia.
  - intros g ce ->%list_elem_of_singleton Hce. vm_compute in Hce.
    injection Hce as <-. exists (PInt 2). split; reflexivity.
Defined.

(** X10: a cache hit for a path that the cached object does not hold
    as one key raises [KeyError]; so it is for every nested path
    ([a/b]) whose cached payload has the usual members only.  For a key
    whose cached candidates all hold an object without a member named
    by their whole path, a call that finds one of them valid raises
    [KeyError]. *)
Theorem X10_hit_on_nested_path_raises key raw e w :
  api w !! key = Some e ->
  (exists g, g ∈ getters e /\ valid_throughout w g) ->
  (forall g ce, g ∈ getters e -> cache w !! fst g = Some ce ->
     exists d, data ce = PDict d /\ d !! snd g = None) ->
  exists k, _get key raw w = (Raise KeyError, set_ticks k w).
Proof.
  intros He Hv Hnone.
  destruct (retrieve_hit_value key e w He Hv) as (n & ce & g & k & Hin & Hce & _ & Hr).
  destruct (Hnone n ce Hin Hce) as (d & Hd & Hmiss).
  rewrite Hd in Hr. simpl in Hr. rewrite Hmiss in Hr.
  exists k. unfold _get, bind. by rewrite Hr.
Qed.

Lemma X10_witness :
  exists k, _get "today_heat_runtime" true ex_usage_cached
            = (Raise KeyError, set_ticks k ex_usage_cached).
Proof.
  apply (X10_hit_on_nested_path_raises "today_heat_runtime" true usage_entry
           ex_usage_cached).
  - reflexivity.
  - exists ("/tstat/datalog", "today/heat_runtime"). split; [apply list_elem_of_here|].
    eexists. split; [reflexivity|]. intros n. simpl. lia.
  - intros g ce ->%list_elem_of_singleton Hce. vm_compute in Hce.
    injection Hce as <-. eexists. split; [reflexivity|]. reflexivity.
Defined.

(** *** The value map *)

Lemma retrieve_entry key w r w1 :
  retrieve key w = (Ok r, w1) ->
  match r with
  | Some (e, _, _) => api w !! key = Some e
  | None => api w !! key = None
  end.
Proof.
  destruct (api w !! key) as [e|] eqn:He.
  - unfold retrieve, bind, api_has_key, api_getitem.
    rewrite (api_known _ _ _ He). simpl. rewrite He.
    destruct (check_cache (getters e) None None w) as [[[newest cur]|x] w2]; [|done].
    destruct newest as [n|]; unfold bind, cache_getitem, lift, http_get,
      CacheEntry_init, now, cache_setitem, ret, local; simpl.
    + destruct (cache w2 !! n.1) as [ce|]; [|done].
      destruct (getitem (data ce) n.2); [|done].
      destruct cur; [|done]. by intros [= <- _].
    + destruct (first (getters e)) as [g|]; [|done]. simpl.
      destruct (device w2 g.1); [|done]. by intros [= <- _].
  - rewrite (retrieve_unknown key w He). by intros [= <- _].
Qed.

(** X11: the [raw] flag changes nothing but the mapping of the value:
    for a key of the API, the call without [raw] ends in the same state
    as the call with it, raises exactly where that one raises, and
    otherwise returns the value of that one sent through the value
    map. *)
Theorem X11_raw_differs_by_mapping_only key e w :
  api w !! key = Some e ->
  _get key false w
  = (match fst (_get key true w) with
     | Ok v => Ok (map_response false e v)
     | Raise x => Raise x
     end, snd (_get key true w)).
Proof.
  intros He. unfold _get, bind, lift, ret.
  destruct (retrieve key w) as [[r|x] w1] eqn:Hr; [|done].
  apply retrieve_entry in Hr.
  destruct r as [[[e' g] response]|]; [|congruence].
  assert (e' = e) as -> by congruence.
  destruct (descend _ response); [|done].
  simpl. unfold map_response. by destruct (valueMap e).
Qed.

Lemma X11_witness :
  _get "fmode" false ex_start
  = (match fst (_get "fmode" true ex_start) with
     | Ok v => Ok (map_response false fmode_entry v)
     | Raise x => Raise x
     end, snd (_get "fmode" true ex_start)).
Proof. apply (X11_raw_differs_by_mapping_only "fmode" fmode_entry ex_start). reflexivity. Defined.

Lemma assoc_Some vm v d :
  assoc vm v = Some d -> exists k, (k, d) ∈ vm /\ py_eqb k v = true.
Proof.
  induction vm as [|[k' d'] vm IH]; simpl; [done|].
  destruct (py_eqb k' v) eqn:Hk.
  - intros [= ->]. exists k'. split; [apply list_elem_of_here|done].
  - intros H. destruct (IH H) as (k & Hin & Heq). exists k.
    split; [by apply list_elem_of_further|done].
Qed.

(** X12: what the value map can do to a value.  The call without [raw]
    returns either the extracted value itself or the value that the
    value map lists for a key equal to it; an extracted list or object,
    which cannot be looked up, always comes back as it is. *)
Theorem X12_mapped_value_comes_from_map key w e g response w1 v :
  retrieve key w = (Ok (Some (e, g, response)), w1) ->
  descend (split "/" (snd g)) response = Ok v ->
  exists v', _get key false w = (Ok v', w1) /\
    (v' = v \/
     exists vm k, valueMap e = Some vm /\ (k, v') ∈ vm /\ py_eqb k v = true) /\
    (hashable v = false -> v' = v).
Proof.
  intros Hr Hd. rewrite (_get_found key false w e g response w1 Hr), Hd.
  eexists. split; [reflexivity|]. unfold map_response, dict_getitem.
  destruct (valueMap e) as [vm|]; [|by split; [left|]].
  destruct (hashable v); [|by split; [left|]].
  destruct (assoc vm v) as [d|] eqn:Hvm; [|by split; [left|]].
  split; [|done]. right. destruct (assoc_Some vm v d Hvm) as (k & Hin & Hk).
  by exists vm, k.
Qed.

Lemma X12_witness :
  exists v', _get "fmode" false ex_start = (Ok v', snd (retrieve "fmode" ex_start)) /\
    (v' = PInt 1 \/
     exists vm k, valueMap fmode_entry = Some vm /\ (k, v') ∈ vm /\
                  py_eqb k (PInt 1) = true) /\
    (hashable (PInt 1) = false -> v' = PInt 1).
Proof.
  apply (X12_mapped_value_comes_from_map "fmode" ex_start fmode_entry
           ("/tstat", "fmode") tstat_payload).
  - vm_compute. reflexivity.
  - vm_compute. reflexivity.
Defined.


(** *** What the cache holds *)

Lemma retrieve_cases key e w :
  api w !! key = Some e ->
  exists k, (ticks w <= k)%nat /\
    (snd (retrieve key w) = set_ticks k w \/
     exists g0,
       first (getters e) = Ok g0 /\
       match device w (fst g0) with
       | Ok payload =>
           snd (retrieve key w)
           = mkState (cacheExpiry w)
               (<[fst g0 := mkCacheEntry (fst g0) payload (clock w k)]> (cache w))
               (api w) (clock w) (S k) (device w) (requests w ++ [fst g0])
       | Raise _ =>
           snd (retrieve key w)
           = mkState (cacheExpiry w) (cache w) (api w) (clock w) k (device w)
               (requests w ++ [fst g0])
       end).
Proof.
  intros He.
  destruct (check_cache_winner (getters e) None None w) as (newest & k & Hk & Hp & _);
    [by intros ?|].
  exists k. split; [done|]. destruct newest as [n|].
  - left. by rewrite (retrieve_after_hit key e n _ k w He Hp).
  - unfold retrieve, bind, api_has_key, api_getitem.
    rewrite (api_known _ _ _ He). simpl. rewrite He, Hp.
    unfold bind, lift, http_get, CacheEntry_init, now, cache_setitem, ret.
    destruct (getters e) as [|g0 rest]; simpl; [by left|].
    right. exists g0. split; [done|]. by destruct (device w g0.1).
Qed.

(** X13: every entry that [_get] stores sits in the cache under the
    location it records: a cache with that property keeps it through
    any call, returning or raising. *)
Theorem X13_entries_under_their_location key raw w :
  keyed w -> keyed (snd (_get key raw w)).
Proof.
  intros Hk. rewrite _get_state.
  destruct (retrieve_effect key w) as [[k ->]|(e & g0 & k & _ & _ & Hw)]; [done|].
  destruct (device w g0.1) as [payload|x]; rewrite Hw; [|done].
  intros loc ce. simpl. destruct (decide (g0.1 = loc)) as [->|Hne].
  - rewrite lookup_insert_eq. by intros [= <-].
  - rewrite lookup_insert_ne by done. apply Hk.
Qed.

Lemma keyed_ex_expired : keyed ex_expired.
Proof.
  intros loc ce H.
  change (cache ex_expired)
    with ({[ "/tstat" := mkCacheEntry "/tstat" tstat_payload 0 ]} : gmap string CacheEntry)
    in H.
  apply lookup_singleton_Some in H as [<- <-]. reflexivity.
Qed.

Lemma X13_witness : keyed (snd (_get "fmode" false ex_expired)).
Proof. apply (X13_entries_under_their_location "fmode" false ex_expired), keyed_ex_expired. Defined.

Lemma stamped_later k w :
  (ticks w <= k)%nat -> stamped w -> stamped (set_ticks k w).
Proof.
  intros Hk Hs loc ce Hce. destruct (Hs loc ce Hce) as (j & Hj & Ht).
  exists j. split; [simpl; lia|done].
Qed.

Lemma _get_stamped key raw w :
  stamped w ->
  stamped (snd (_get key raw w)) /\ (ticks w <= ticks (snd (_get key raw w)))%nat.
Proof.
  intros Hs. rewrite _get_state.
  destruct (api w !! key) as [e|] eqn:He.
  2:{ rewrite (retrieve_unknown key w He). by split. }
  destruct (retrieve_cases key e w He) as (k & Hk & [->|(g0 & _ & Hw)]).
  - split; [by apply stamped_later|done].
  - destruct (device w g0.1) as [payload|x]; rewrite Hw; simpl.
    + split; [|lia]. intros loc ce. simpl.
      destruct (decide (g0.1 = loc)) as [->|Hne].
      * rewrite lookup_insert_eq. intros [= <-]. exists k. split; [lia|done].
      * rewrite lookup_insert_ne by done. intros Hce.
        destruct (Hs loc ce Hce) as (j & Hj & Ht). exists j. split; [lia|done].
    + split; [|done]. intros loc ce Hce.
      destruct (Hs loc ce Hce) as (j & Hj & Ht). exists j. split; [simpl; lia|done].
Qed.

(** X14: every entry of the cache bears the reading the clock gave
    when it was stored.  A cache whose stamps are readings already
    taken keeps that property through any call, returning or raising,
    and the clock is only ever read onwards; so under a clock that
    never runs backwards no entry is ever found with a negative age. *)
Theorem X14_stamps_are_past_readings key raw w :
  stamped w ->
  let w' := snd (_get key raw w) in
  stamped w' /\ (ticks w <= ticks w')%nat /\
  (forward w ->
   forall loc ce n, cache w' !! loc = Some ce -> (ticks w' <= n)%nat ->
     0 <= clock w n - time ce).
Proof.
  intros Hs. simpl. destruct (_get_stamped key raw w Hs) as [Hs' Ht].
  split; [done|]. split; [done|].
  intros Hf loc ce n Hce Hn. destruct (Hs' loc ce Hce) as (j & Hj & Hstamp).
  assert (Hclock : clock (snd (_get key raw w)) = clock w).
  { rewrite _get_state.
    destruct (retrieve_effect key w) as [[k ->]|(e & g0 & k & _ & _ & Hw)]; [done|].
    destruct (device w g0.1); by rewrite Hw. }
  rewrite Hstamp, Hclock. specialize (Hf j n). lia.
Qed.

Lemma stamped_ex_zero : stamped ex_zero.
Proof.
  intros loc ce H.
  change (cache ex_zero)
    with ({[ "/tstat" := mkCacheEntry "/tstat" tstat_payload 0 ]} : gmap string CacheEntry)
    in H.
  apply lookup_singleton_Some in H as [<- <-]. exists 0%nat. split; [simpl; lia|done].
Qed.

Lemma X14_witness :
  let w' := snd (_get "fmode" false ex_zero) in
  stamped w' /\ (ticks ex_zero <= ticks w')%nat /\
  (forward ex_zero ->
   forall loc ce n, cache w' !! loc = Some ce -> (ticks w' <= n)%nat ->
     0 <= clock ex_zero n - time ce).
Proof. apply (X14_stamps_are_past_readings "fmode" false ex_zero), stamped_ex_zero. Defined.

(** *** The expiry *)

Lemma stale_when_off w g :
  stamped w -> forward w -> cacheExpiry w <= 0 -> stale_from_now w g.
Proof.
  intros Hs Hf Hexp. destruct (cache w !! g.1) as [ce|] eqn:Hce; [|by left].
  right. exists ce. split; [done|]. intros n Hn.
  destruct (Hs g.1 ce Hce) as (j & Hj & ->). specialize (Hf j n). lia.
Qed.

(** X15: with an expiry of zero or less the cache is never used.
    Under a clock that never runs backwards, and for a cache whose
    stamps are readings already taken, every call for a key of the API
    with a getter issues a GET of the first getter's location. *)
Theorem X15_no_expiry_no_reuse key raw e g0 rest w :
  stamped w -> forward w -> cacheExpiry w <= 0 ->
  api w !! key = Some e -> getters e = g0 :: rest ->
  requests (snd (_get key raw w)) = (requests w ++ [fst g0])%list.
Proof.
  intros Hs Hf Hexp He Hg. rewrite _get_state.
  destruct (retrieve_stale key e g0 rest w He Hg) as (k & _ & ->).
  { intros g _. by apply stale_when_off. }
  by destruct (device w g0.1).
Qed.

Lemma forward_ex_zero : forward ex_zero.
Proof. intros n m H. simpl. lia. Qed.

Lemma X15_witness :
  requests (snd (_get "fmode" false ex_zero)) = (requests ex_zero ++ ["/tstat"])%list.
Proof.
  apply (X15_no_expiry_no_reuse "fmode" false fmode_entry ("/tstat", "fmode") [] ex_zero).
  - apply stamped_ex_zero.
  - apply forward_ex_zero.
  - simpl. lia.
  - reflexivity.
  - reflexivity.
Defined.

(** X16: [setCacheExpiry] applies at once to what is already cached:
    after it, an entry is reused or not by its age against the new
    expiry, whatever the expiry was when the entry was stored.  If some
    candidate's entry is younger than the new expiry at every reading,
    no GET is issued; if every cached candidate has reached the new
    expiry at every reading still to come, the first getter's location
    is fetched. *)
Theorem X16_new_expiry_applies_at_once key raw s e g0 rest w :
  api w !! key = Some e -> getters e = g0 :: rest ->
  let w' := snd (setCacheExpiry s w) in
  ((exists g ce, g ∈ getters e /\ cache w !! fst g = Some ce /\
                 forall n, clock w n - time ce < s * 1000000) ->
   requests (snd (_get key raw w')) = requests w) /\
  ((forall g ce n, g ∈ getters e -> cache w !! fst g = Some ce ->
                   (ticks w <= n)%nat -> s * 1000000 <= clock w n - time ce) ->
   requests (snd (_get key raw w')) = (requests w ++ [fst g0])%list).
Proof.
  intros He Hg. simpl. split.
  - intros (g & ce & Hin & Hce & Hage). rewrite _get_state.
    destruct (retrieve_hit_state key e g (set_cacheExpiry (s * 1000000) w) He Hin)
      as [k ->]; [|done].
    by exists ce.
  - intros Hall. rewrite _get_state.
    destruct (retrieve_stale key e g0 rest (set_cacheExpiry (s * 1000000) w) He Hg)
      as (k & _ & ->).
    + intros g Hin. destruct (cache w !! g.1) as [ce|] eqn:Hce; [|by left].
      right. exists ce. split; [done|]. intros n Hn. by apply (Hall g).
    + simpl. by destruct (device w g0.1).
Qed.

Lemma X16_witness :
  let w' := snd (setCacheExpiry 1 ex_cached) in
  ((exists g ce, g ∈ [("/tstat", "fmode")] /\ cache ex_cached !! fst g = Some ce /\
                 forall n, clock ex_cached n - time ce < 1 * 1000000) ->
   requests (snd (_get "fmode" false w')) = requests ex_cached) /\
  ((forall g ce n, g ∈ [("/tstat", "fmode")] -> cache ex_cached !! fst g = Some ce ->
                   (ticks ex_cached <= n)%nat ->
                   1 * 1000000 <= clock ex_cached n - time ce) ->
   requests (snd (_get "fmode" false w')) = (requests ex_cached ++ ["/tstat"])%list).
Proof.
  apply (X16_new_expiry_applies_at_once "fmode" false 1 fmode_entry
           ("/tstat", "fmode") [] ex_cached); reflexivity.
Defined.

(** The entry cached five seconds' worth is dropped as soon as the
    expiry is set to one second. *)
Example expiry_shortened :
  requests (snd (_get "fmode" false ex_cached)) = [] /\
  requests (snd (_get "fmode" false (snd (setCacheExpiry 1 ex_cached)))) = ["/tstat"].
Proof. split; vm_compute; reflexivity. Qed.

(** *** One call after another *)

(** X17: what one call fetched serves the next ones.  After a live
    fetch that the device answered, the answer lies in the cache under
    the location fetched; and as long as it is younger than the expiry,
    a call for any key with a getter on that location issues no GET,
    whatever else has happened to the clock, the expiry and the table
    in between. *)
Theorem X17_fetched_once_served_from_cache key raw e g0 rest payload w :
  api w !! key = Some e -> getters e = g0 :: rest ->
  (forall g, g ∈ getters e -> stale_from_now w g) ->
  device w (fst g0) = Ok payload ->
  let w1 := snd (_get key raw w) in
  exists stamp,
    cache w1 !! fst g0 = Some (mkCacheEntry (fst g0) payload stamp) /\
    forall w2 key2 raw2 e2 g2,
      cache w2 = cache w1 -> api w2 !! key2 = Some e2 ->
      g2 ∈ getters e2 -> fst g2 = fst g0 ->
      (forall n, clock w2 n - stamp < cacheExpiry w2) ->
      requests (snd (_get key2 raw2 w2)) = requests w2.
Proof.
  intros He Hg Hall Hdev. simpl. rewrite _get_state.
  destruct (retrieve_stale key e g0 rest w He Hg Hall) as (k & _ & Hr).
  rewrite Hdev in Hr. rewrite Hr. simpl.
  exists (clock w k). split; [by rewrite lookup_insert_eq|].
  intros w2 key2 raw2 e2 g2 Hc He2 Hin Hloc Hage. rewrite _get_state.
  destruct (retrieve_hit_state key2 e2 g2 w2 He2 Hin) as [k2 ->]; [|done].
  eexists. split; [by rewrite Hc, Hloc, lookup_insert_eq|done].
Qed.

Lemma X17_witness :
  let w1 := snd (_get "fmode" false ex_start) in
  exists stamp,
    cache w1 !! "/tstat" = Some (mkCacheEntry "/tstat" tstat_payload stamp) /\
    forall w2 key2 raw2 e2 g2,
      cache w2 = cache w1 -> api w2 !! key2 = Some e2 ->
      g2 ∈ getters e2 -> fst g2 = "/tstat" ->
      (forall n, clock w2 n - stamp < cacheExpiry w2) ->
      requests (snd (_get key2 raw2 w2)) = requests w2.
Proof.
  apply (X17_fetched_once_served_from_cache "fmode" false fmode_entry
           ("/tstat", "fmode") [] tstat_payload ex_start).
  - reflexivity.
  - reflexivity.
  - intros g _. by left.
  - reflexivity.
Defined.

(** *** Both set points *)

(** X18: [getSetPoints] on a table that serves both set points from one
    location.  With nothing cached for that location, and the clock not
    moving by as much as the expiry during the call, the heat point is
    fetched and the cool point then found in the cache, as a plain
    value, which the descent loop indexes once more: the call raises
    [TypeError] after its one GET instead of returning the pair. *)
Theorem X18_getSetPoints_on_one_location raw eh ec loc kh kc d vh vc w :
  api w !! "t_heat" = Some eh -> getters eh = [(loc, kh)] ->
  api w !! "t_cool" = Some ec -> getters ec = [(loc, kc)] ->
  cache w !! loc = None -> device w loc = Ok (PDict d) ->
  descend (split "/" kh) (PDict d) = Ok vh ->
  d !! kc = Some vc -> is_dict vc = false ->
  (forall n m, clock w n - clock w m < cacheExpiry w) ->
  exists k stamp,
    getSetPoints raw w
    = (Raise TypeError,
       mkState (cacheExpiry w) (<[loc := mkCacheEntry loc (PDict d) stamp]> (cache w))
         (api w) (clock w) k (device w) (requests w ++ [loc])).
Proof.
  intros Heh Hgh Hec Hgc Hnone Hdev Hvh Hvc Hplain Hclock.
  destruct (retrieve_stale "t_heat" eh (loc, kh) [] w Heh Hgh) as (k & _ & Hr1).
  { rewrite Hgh. intros g ->%list_elem_of_singleton. by left. }
  simpl in Hr1. rewrite Hdev in Hr1.
  pose proof (_get_found "t_heat" false w eh (loc, kh) (PDict d) _ Hr1) as H1.
  simpl in H1. rewrite Hvh in H1.
  match type of H1 with _ = (_, ?w1) =>
    destruct (retrieve_hit_value "t_cool" ec w1 Hec) as (n & ce & g & k2 & Hin & Hce & Hl & Hr2)
  end.
  { exists (loc, kc). split; [rewrite Hgc; apply list_elem_of_here|].
    eexists. split; [apply lookup_insert_eq|]. intros n. simpl. apply Hclock. }
  rewrite Hgc in Hin, Hl. apply list_elem_of_singleton in Hin as ->.
  injection Hl as <-. simpl in Hce. rewrite lookup_insert_eq in Hce.
  injection Hce as <-. simpl in Hr2. rewrite Hvc in Hr2.
  pose proof (_get_found "t_cool" false _ ec (loc, kc) vc _ Hr2) as H2.
  rewrite (descend_not_dict _ vc Hplain (split_not_nil _ _)) in H2.
  exists k2, (clock w k).
  unfold getSetPoints, getHeatPoint, getCoolPoint, bind. by rewrite H1, H2.
Qed.

Lemma X18_witness :
  exists k stamp,
    getSetPoints true ex_points
    = (Raise TypeError,
       mkState (cacheExpiry ex_points)
         (<["/tstat" := mkCacheEntry "/tstat" ex_points_payload stamp]> (cache ex_points))
         (api ex_points) (clock ex_points) k (device ex_points)
         (requests ex_points ++ ["/tstat"])).
Proof.
  apply (X18_getSetPoints_on_one_location true
           (mkAPIEntry [("/tstat", "t_heat")] None)
           (mkAPIEntry [("/tstat", "t_cool")] None)
           "/tstat" "t_heat" "t_cool"
           {[ "t_heat" := PInt 68; "t_cool" := PInt 75 ]} (PInt 68) (PInt 75) ex_points);
    reflexivity.
Defined.

(** X19: [getSetPoints] with the cache switched off.  With an expiry of
    zero or less, under a clock that never runs backwards, each of the
    two set points is fetched from its first getter, heat before cool,
    and the call returns the pair of the two values, mapped by their
    value maps whatever [raw] says. *)
Theorem X19_getSetPoints_without_cache raw eh ec gh resth gc restc ph pc vh vc w :
  stamped w -> forward w -> cacheExpiry w <= 0 ->
  api w !! "t_heat" = Some eh -> getters eh = gh :: resth ->
  api w !! "t_cool" = Some ec -> getters ec = gc :: restc ->
  device w (fst gh) = Ok ph -> device w (fst gc) = Ok pc ->
  descend (split "/" (snd gh)) ph = Ok vh ->
  descend (split "/" (snd gc)) pc = Ok vc ->
  exists w2,
    getSetPoints raw w = (Ok (map_response false eh vh, map_response false ec vc), w2) /\
    requests w2 = (requests w ++ [fst gh; fst gc])%list.
Proof.
  intros Hs Hf Hexp Heh Hgh Hec Hgc Hdh Hdc Hvh Hvc.
  destruct (retrieve_stale "t_heat" eh gh resth w Heh Hgh) as (k & _ & Hr1).
  { intros g _. by apply stale_when_off. }
  rewrite Hdh in Hr1.
  pose proof (_get_found "t_heat" false w eh gh ph _ Hr1) as H1. rewrite Hvh in H1.
  destruct (_get_stamped "t_heat" false w Hs) as [Hs1 _]. rewrite H1 in Hs1.
  simpl in Hs1.
  match type of H1 with _ = (_, ?w1) =>
    destruct (retrieve_stale "t_cool" ec gc restc w1 Hec Hgc) as (k2 & _ & Hr2)
  end.
  { intros g _. by apply stale_when_off. }
  simpl in Hr2. rewrite Hdc in Hr2.
  pose proof (_get_found "t_cool" false _ ec gc pc _ Hr2) as H2. rewrite Hvc in H2.
  eexists. unfold getSetPoints, getHeatPoint, getCoolPoint, bind.
  rewrite H1, H2. split; [reflexivity|]. simpl. by rewrite <- app_assoc.
Qed.

Lemma X19_witness :
  exists w2,
    getSetPoints true (snd (setCacheExpiry 0 ex_points))
    = (Ok (map_response false (mkAPIEntry [("/tstat", "t_heat")] None) (PInt 68),
           map_response false (mkAPIEntry [("/tstat", "t_cool")] None) (PInt 75)), w2) /\
    requests w2
    = (requests (snd (setCacheExpiry 0 ex_points)) ++ ["/tstat"; "/tstat"])%list.
Proof.
  apply (X19_getSetPoints_without_cache true
           (mkAPIEntry [("/tstat", "t_heat")] None)
           (mkAPIEntry [("/tstat", "t_cool")] None)
           ("/tstat", "t_heat") [] ("/tstat", "t_cool") []
           ex_points_payload ex_points_payload (PInt 68) (PInt 75)
           (snd (setCacheExpiry 0 ex_points)));
    try reflexivity.
  - intros loc ce H.
    change (cache (snd (setCacheExpiry 0 ex_points)))
      with (∅ : gmap string CacheEntry) in H.
    by rewrite lookup_empty in H.
  - intros n m _. simpl. lia.
Defined.

(** *** The constructor *)

(** X20: a client built with a table of its own starts with an empty
    cache and the expiry given in seconds, and the constructor neither
    contacts the device nor reads the clock, whatever object was there
    before; so the first read of any key of the table that has a
    getter fetches the first getter's location. *)
Theorem X20_new_client_fetches_first API0 getAPI s a key raw e g0 rest w :
  a !! key = Some e -> getters e = g0 :: rest ->
  TStat_init API0 getAPI s (Some a) w
  = (Ok tt, mkState (s * 1000000) ∅ a (clock w) (ticks w) (device w) (requests w)) /\
  requests (snd (_get key raw (snd (TStat_init API0 getAPI s (Some a) w))))
  = (requests w ++ [fst g0])%list.
Proof.
  intros He Hg. split; [done|]. rewrite _get_state.
  match goal with |- context [retrieve key ?w0] =>
    destruct (retrieve_stale key e g0 rest w0 He Hg) as (k & _ & ->)
  end.
  - intros g _. by left.
  - by destruct (device _ g0.1).
Qed.

Lemma X20_witness :
  TStat_init ex_API0 ex_getAPI 5 (Some ex_api) ex_boot
  = (Ok tt, mkState (5 * 1000000) ∅ ex_api (clock ex_boot) (ticks ex_boot)
              (device ex_boot) (requests ex_boot)) /\
  requests (snd (_get "tmode" true
                   (snd (TStat_init ex_API0 ex_getAPI 5 (Some ex_api) ex_boot))))
  = (requests ex_boot ++ ["/tstat"])%list.
Proof.
  apply (X20_new_client_fetches_first ex_API0 ex_getAPI 5 ex_api "tmode" true
           tmode_entry ("/tstat", "tmode") [] ex_boot); reflexivity.
Defined.

(** X21: a client built without a table finds out the model through
    [_get] on the bare table of module [API]: with a getter for
    ["model"] there, the constructor issues one GET, of the first such
    getter's location.  If the device answers and the model is found
    in the answer, the table installed is the one [getAPI] gives for
    the (mapped) model, and the answer stays in the new client's cache;
    if the GET raises, so does the constructor. *)
Theorem X21_new_client_detects_model API0 getAPI s em g0 rest w :
  API0 !! "model" = Some em -> getters em = g0 :: rest ->
  (forall payload v table,
     device w (fst g0) = Ok payload ->
     descend (split "/" (snd g0)) payload = Ok v ->
     getAPI (map_response false em v) = Ok table ->
     exists k,
       TStat_init API0 getAPI s None w
       = (Ok tt,
          mkState (s * 1000000)
            (<[fst g0 := mkCacheEntry (fst g0) payload (clock w k)]> ∅)
            table (clock w) (S k) (device w) (requests w ++ [fst g0]))) /\
  (forall x,
     device w (fst g0) = Raise x ->
     fst (TStat_init API0 getAPI s None w) = Raise x /\
     requests (snd (TStat_init API0 getAPI s None w)) = (requests w ++ [fst g0])%list).
Proof.
  intros He Hg.
  set (w0 := mkState (s * 1000000) ∅ API0 (clock w) (ticks w) (device w) (requests w)).
  destruct (retrieve_stale "model" em g0 rest w0 He Hg) as (k & _ & Hr).
  { intros g _. by left. }
  assert (Hinit : TStat_init API0 getAPI s None w
                  = bind (_get "model" false)
                      (fun model => bind (lift (getAPI model)) put_api) w0) by done.
  rewrite Hinit. unfold bind at 1. split.
  - intros payload v table Hdev Hv Htable. simpl in Hr. rewrite Hdev in Hr.
    rewrite (_get_found "model" false w0 em g0 payload _ Hr), Hv.
    unfold bind, lift, put_api. rewrite Htable. by exists k.
  - intros x Hdev. simpl in Hr. rewrite Hdev in Hr.
    unfold _get, bind. by rewrite Hr.
Qed.

Lemma X21_witness :
  exists k,
    TStat_init ex_API0 ex_getAPI 5 None ex_boot
    = (Ok tt,
       mkState (5 * 1000000)
         (<["/tstat/model" := mkCacheEntry "/tstat/model"
                                (PDict {[ "model" := PStr "CT50" ]})
                                (clock ex_boot k)]> ∅)
         ex_api (clock ex_boot) (S k) (device ex_boot)
         (requests ex_boot ++ ["/tstat/model"])).
Proof.
  destruct (X21_new_client_detects_model ex_API0 ex_getAPI 5
              (mkAPIEntry [("/tstat/model", "model")] None)
              ("/tstat/model", "model") [] ex_boot) as [Hok _].
  - reflexivity.
  - reflexivity.
  - apply (Hok (PDict {[ "model" := PStr "CT50" ]}) (PStr "CT50") ex_api); reflexivity.
Defined.
